(** * LitData Viewer: frontend command wrappers, selection store, and the
      shard reading engine they call into.

    The TypeScript sources ([src/lib/tauri-api.ts], [src/store/viewer.ts])
    are embedded function by function.  JavaScript strings are sequences of
    UTF-16 code units; asynchronous functions are computations in a small
    monad that threads the log of calls made to the host (dialog, path API,
    backend commands) and may end in a thrown error. *)

From stdpp Require Import base list strings gmap pretty.
From Stdlib Require Import ZArith NArith Lia.

Set Default Proof Using "Type".
Open Scope list_scope.

(* ===================================================================== *)
(** ** JavaScript strings *)
(* ===================================================================== *)

Module JsString.

(** A string value is a finite sequence of 16-bit code units. *)
Abbreviation jsstring := (list N).

(** An ASCII literal of the source, as code units. *)
Definition lit (s : string) : jsstring :=
  (λ a, Ascii.N_of_ascii a) <$> String.list_ascii_of_string s.

(** ECMAScript [WhiteSpace] and [LineTerminator] code points, the set that
    [String.prototype.trim] strips: TAB, LF, VT, FF, CR, SP, NBSP, the
    [Zs] category (U+1680, U+2000..U+200A, U+202F, U+205F, U+3000), LS, PS
    and the byte order mark. *)
Definition is_white_space (c : N) : bool :=
  ((c =? 9) || (c =? 10) || (c =? 11) || (c =? 12) || (c =? 13)
   || (c =? 32) || (c =? 160) || (c =? 5760)
   || ((8192 <=? c) && (c <=? 8202))
   || (c =? 8232) || (c =? 8233) || (c =? 8239) || (c =? 8287)
   || (c =? 12288) || (c =? 65279))%N.

Fixpoint trimStart (s : jsstring) : jsstring :=
  match s with
  | [] => []
  | c :: rest => if is_white_space c then trimStart rest else s
  end.

Definition trimEnd (s : jsstring) : jsstring :=
  reverse (trimStart (reverse s)).

(** [s.trim()] *)
Definition trim (s : jsstring) : jsstring := trimEnd (trimStart s).

(** [s.startsWith(t)] *)
Fixpoint startsWith (s t : jsstring) {struct t} : bool :=
  match t, s with
  | [], _ => true
  | _ :: _, [] => false
  | c :: t', d :: s' => (c =? d)%N && startsWith s' t'
  end.

(** [s.endsWith(t)] *)
Definition endsWith (s t : jsstring) : bool :=
  startsWith (reverse s) (reverse t).

(** [s.includes(t)] *)
Fixpoint includes (s t : jsstring) : bool :=
  startsWith s t ||
  match s with
  | [] => false
  | _ :: s' => includes s' t
  end.

(** Canonicalisation of one code unit for a case-insensitive match
    without the unicode flag: only the ASCII letters fold onto ASCII
    letters. *)
Definition fold_case (c : N) : N :=
  if ((97 <=? c) && (c <=? 122))%N then (c - 32)%N else c.

Definition endsWithNoCase (s t : jsstring) : bool :=
  endsWith (fold_case <$> s) (fold_case <$> t).

(** Truthiness of a string: only the empty string is falsy. *)
Definition truthy (s : jsstring) : bool :=
  match s with [] => false | _ :: _ => true end.

End JsString.

Import JsString.

(* ===================================================================== *)
(** ** Asynchronous tasks *)
(* ===================================================================== *)

(** The payload of the two backend commands that load a dataset. *)
Inductive InvokeArgs :=
| ArgsIndexPath (indexPath : jsstring)
| ArgsPaths (paths : list jsstring).

(** What a wrapper asked of the host, in order. *)
Inductive Call :=
| CallInvoke (cmd : string) (args : InvokeArgs)
| CallOpenDialog (defaultPath : option jsstring)
| CallDirname (path : jsstring).

(** How an awaited promise settles. *)
Inductive Outcome (A : Type) :=
| Returned (a : A)
| Thrown (message : string).
Arguments Returned {A} a.
Arguments Thrown {A} message.

(** An async function body: it extends the call log and settles. *)
Definition Task (A : Type) : Type := list Call → Outcome A * list Call.

Definition ret {A} (a : A) : Task A := λ log, (Returned a, log).

#[global] Instance task_ret : MRet Task := @ret.

Definition throw {A} (message : string) : Task A := λ log, (Thrown message, log).

(** [await]: run [t]; when it returns, continue with [k]; when it throws,
    the whole body throws. *)
#[global] Instance task_bind : MBind Task := λ A B k t log,
  match t log with
  | (Returned a, log') => k a log'
  | (Thrown e, log') => (Thrown e, log')
  end.

(** [try { t } catch { h }] *)
Definition try_catch {A} (t : Task A) (h : Task A) : Task A :=
  λ log,
    match t log with
    | (Returned a, log') => (Returned a, log')
    | (Thrown _, log') => h log'
    end.

(** A call into the host: logged, then settled as the host answers. *)
Definition host {A} (c : Call) (answer : Outcome A) : Task A :=
  λ log, (answer, log ++ [c]).

(* ===================================================================== *)
(** ** [src/lib/tauri-api.ts]: the typed command wrappers *)
(* ===================================================================== *)

Module TauriApi.

(** What the file dialog resolves to: [null], one path, or a list of paths
    ([string | string[] | null]). *)
Inductive Picked :=
| PickNull
| PickString (path : jsstring)
| PickArray (paths : list jsstring).

(** [type PickResult] *)
Inductive PickResult :=
| PickIndex (indexPath : jsstring)
| PickChunks (paths : list jsstring).

(** The host the wrappers run in: whether [window.__TAURI__] is set, and
    how the path API, the dialog (given its default path) and the backend
    commands settle.  The reply of a backend command is passed through
    unread, so its type is left open. *)
Record Runtime (Reply : Type) := {
  tauri : bool;
  dirname_api : jsstring → Outcome jsstring;
  dialog_api : option jsstring → Outcome Picked;
  backend : string → InvokeArgs → Outcome Reply;
}.
Arguments tauri {Reply} _.
Arguments dirname_api {Reply} _ _.
Arguments dialog_api {Reply} _ _.
Arguments backend {Reply} _ _ _.

Section Wrappers.
Context {Reply : Type} (rt : Runtime Reply).

Definition isTauri : bool := tauri rt.

Definition requireTauri (task : string) : Task unit :=
  if negb isTauri then throw (task +:+ " requires the Tauri runtime.")
  else ret tt.

Definition invoke (cmd : string) (args : InvokeArgs) : Task Reply :=
  host (CallInvoke cmd args) (backend rt cmd args).

Definition dirname (path : jsstring) : Task jsstring :=
  host (CallDirname path) (dirname_api rt path).

Definition openDialog (defaultPath : option jsstring) : Task Picked :=
  host (CallOpenDialog defaultPath) (dialog_api rt defaultPath).

(** [/\.(json|bin|zst)$/i.test(candidate)] *)
Definition looksLikeFile (candidate : jsstring) : bool :=
  endsWithNoCase candidate (lit ".json")
  || endsWithNoCase candidate (lit ".bin")
  || endsWithNoCase candidate (lit ".zst").

(** [undefined] arguments and the [undefined] result are [None]. *)
Definition resolveDefaultDialogPath (path rootDir : option jsstring)
  : Task (option jsstring) :=
  let trimmed := trim (default [] path) in
  if endsWith trimmed (lit "/") || endsWith trimmed [92%N] then
    ret (Some trimmed)
  else
    let fallbackRoot := trim (default [] rootDir) in
    let candidate := if truthy trimmed then trimmed else fallbackRoot in
    if negb (truthy candidate) then ret None
    else if negb (looksLikeFile candidate) then ret (Some candidate)
    else try_catch (d ← dirname candidate; ret (Some d))
                   (ret (Some candidate)).

(** [!picked]: [null] and the empty string are falsy, an array never is. *)
Definition picked_falsy (picked : Picked) : bool :=
  match picked with
  | PickNull => true
  | PickString s => negb (truthy s)
  | PickArray _ => false
  end.

(** [Array.isArray(picked) ? picked[0] : picked]; [None] is a value that
    is not a string ([undefined] from an empty array, or [null]). *)
Definition first_of (picked : Picked) : option jsstring :=
  match picked with
  | PickArray paths => head paths
  | PickString path => Some path
  | PickNull => None
  end.

(** [Array.isArray(picked) && picked.length > 1] *)
Definition several (picked : Picked) : option (list jsstring) :=
  match picked with
  | PickArray paths => if bool_decide (1 < length paths) then Some paths else None
  | _ => None
  end.

(** The test that sends a single path to the chunk loader. *)
Definition chunk_like (first : jsstring) : bool :=
  endsWith first (lit ".bin") || endsWith first (lit ".zst")
  || includes first (lit ".bin").

Definition chooseIndexSource (currentPath : jsstring)
    (lastRoot : option jsstring) : Task (option PickResult) :=
  requireTauri "Choosing files";;
  defaultPath ← resolveDefaultDialogPath (Some currentPath) lastRoot;
  picked ← openDialog (match defaultPath with
                       | Some d => if truthy d then Some d else None
                       | None => None
                       end);
  if picked_falsy picked then ret None
  else
    match several picked with
    | Some paths => ret (Some (PickChunks paths))
    | None =>
        match first_of picked with
        | None => ret None
        | Some first =>
            if chunk_like first then ret (Some (PickChunks [first]))
            else ret (Some (PickIndex first))
        end
    end.

Definition loadIndex (indexPath : jsstring) : Task Reply :=
  requireTauri "Loading index";;
  let trimmed := trim indexPath in
  if negb (truthy trimmed) then throw "Provide an index.json path to load."
  else invoke "load_index" (ArgsIndexPath trimmed).

Definition loadChunkList (paths : list jsstring) : Task Reply :=
  requireTauri "Loading chunks";;
  if bool_decide (length paths = 0) then
    throw "Select at least one chunk file to load."
  else invoke "load_chunk_list" (ArgsPaths paths).

End Wrappers.

(** "A single picked path": a one-element list, or a bare non-empty
    string (the empty string is falsy and is treated like [null]). *)
Definition single_pick (picked : Picked) (path : jsstring) : Prop :=
  picked = PickArray [path] ∨ (picked = PickString path ∧ path ≠ []).

End TauriApi.

(** *** Two hosts to run the wrappers in *)

Module Hosts.

Import TauriApi.

(** A browser tab: no Tauri runtime; the host would answer if asked. *)
Definition browser : Runtime nat :=
  {| tauri := false;
     dirname_api := λ _, Returned (lit "/data");
     dialog_api := λ _, Returned PickNull;
     backend := λ _ _, Returned 0 |}.

(** The desktop application, with a dialog that answers [picked] and a
    backend that answers [7]. *)
Definition desktop (picked : Picked) : Runtime nat :=
  {| tauri := true;
     dirname_api := λ _, Returned (lit "/data");
     dialog_api := λ _, Returned picked;
     backend := λ _ _, Returned 7 |}.

End Hosts.

(* ===================================================================== *)
(** ** [src/store/viewer.ts]: the selection store *)
(* ===================================================================== *)

Module ViewerStore.

(** Item and field indices are integers handed out by the backend; the
    store compares and stores them, it computes nothing with them. *)
Definition number := Z.

(** [type LoadMode] *)
Inductive LoadMode :=
| ModeIndex (indexPath : jsstring) (requestId : number)
| ModeChunks (paths : list jsstring) (requestId : number).

(** The data part of [type ViewerState]. *)
Record ViewerState := {
  indexPath : jsstring;
  chunkSelection : list jsstring;
  mode : option LoadMode;
  selectedChunkName : option jsstring;
  selectedItemIndex : option number;
  selectedFieldIndex : option number;
  statusMessage : option jsstring;
}.

(** One [key: value] entry of the object literal passed to [set]. *)
Inductive Entry :=
| indexPath_is (v : jsstring)
| chunkSelection_is (v : list jsstring)
| mode_is (v : option LoadMode)
| selectedChunkName_is (v : option jsstring)
| selectedItemIndex_is (v : option number)
| selectedFieldIndex_is (v : option number)
| statusMessage_is (v : option jsstring).

Definition assign (s : ViewerState) (e : Entry) : ViewerState :=
  match e with
  | indexPath_is v =>
      {| indexPath := v; chunkSelection := chunkSelection s; mode := mode s;
         selectedChunkName := selectedChunkName s;
         selectedItemIndex := selectedItemIndex s;
         selectedFieldIndex := selectedFieldIndex s;
         statusMessage := statusMessage s |}
  | chunkSelection_is v =>
      {| indexPath := indexPath s; chunkSelection := v; mode := mode s;
         selectedChunkName := selectedChunkName s;
         selectedItemIndex := selectedItemIndex s;
         selectedFieldIndex := selectedFieldIndex s;
         statusMessage := statusMessage s |}
  | mode_is v =>
      {| indexPath := indexPath s; chunkSelection := chunkSelection s; mode := v;
         selectedChunkName := selectedChunkName s;
         selectedItemIndex := selectedItemIndex s;
         selectedFieldIndex := selectedFieldIndex s;
         statusMessage := statusMessage s |}
  | selectedChunkName_is v =>
      {| indexPath := indexPath s; chunkSelection := chunkSelection s;
         mode := mode s; selectedChunkName := v;
         selectedItemIndex := selectedItemIndex s;
         selectedFieldIndex := selectedFieldIndex s;
         statusMessage := statusMessage s |}
  | selectedItemIndex_is v =>
      {| indexPath := indexPath s; chunkSelection := chunkSelection s;
         mode := mode s; selectedChunkName := selectedChunkName s;
         selectedItemIndex := v;
         selectedFieldIndex := selectedFieldIndex s;
         statusMessage := statusMessage s |}
  | selectedFieldIndex_is v =>
      {| indexPath := indexPath s; chunkSelection := chunkSelection s;
         mode := mode s; selectedChunkName := selectedChunkName s;
         selectedItemIndex := selectedItemIndex s;
         selectedFieldIndex := v;
         statusMessage := statusMessage s |}
  | statusMessage_is v =>
      {| indexPath := indexPath s; chunkSelection := chunkSelection s;
         mode := mode s; selectedChunkName := selectedChunkName s;
         selectedItemIndex := selectedItemIndex s;
         selectedFieldIndex := selectedFieldIndex s;
         statusMessage := v |}
  end.

(** zustand's [set(partial)]: the next state is
    [Object.assign({}, state, partial)], the entries taken in order. *)
Definition set (partial : list Entry) (state : ViewerState) : ViewerState :=
  foldl assign state partial.

(** The state [create] starts from. *)
Definition initial : ViewerState :=
  {| indexPath := []; chunkSelection := []; mode := None;
     selectedChunkName := None; selectedItemIndex := None;
     selectedFieldIndex := None; statusMessage := None |}.

Definition setIndexPath (path : jsstring) : ViewerState → ViewerState :=
  set [indexPath_is path].

Definition setChunkSelection (paths : list jsstring)
  : ViewerState → ViewerState :=
  set [chunkSelection_is paths].

(** [mode]: [true] for ["index"], [false] for ["chunks"]; [now] is what
    [Date.now()] answers. *)
Definition triggerLoad (now : number) (index_mode : bool)
    (payload : option (list jsstring)) (state : ViewerState) : ViewerState :=
  let requestId := now in
  if index_mode then
    let indexPath := trim (indexPath state) in
    if negb (truthy indexPath) then state
    else set [mode_is (Some (ModeIndex indexPath requestId));
              selectedChunkName_is None;
              selectedItemIndex_is None;
              selectedFieldIndex_is None] state
  else
    let paths := default (chunkSelection state) payload in
    if bool_decide (length paths = 0) then state
    else set [mode_is (Some (ModeChunks paths requestId));
              selectedChunkName_is None;
              selectedItemIndex_is None;
              selectedFieldIndex_is None] state.

Definition selectChunk (filename : option jsstring)
  : ViewerState → ViewerState :=
  set [selectedChunkName_is filename;
       selectedItemIndex_is None;
       selectedFieldIndex_is None].

Definition selectItem (idx : option number) : ViewerState → ViewerState :=
  set [selectedItemIndex_is idx; selectedFieldIndex_is None].

Definition selectField (idx : option number) : ViewerState → ViewerState :=
  set [selectedFieldIndex_is idx].

Definition setStatusMessage (message : option jsstring)
  : ViewerState → ViewerState :=
  set [statusMessage_is message].

Definition clearMode : ViewerState → ViewerState :=
  set [mode_is None;
       selectedChunkName_is None;
       selectedItemIndex_is None;
       selectedFieldIndex_is None].

End ViewerStore.

(* ===================================================================== *)
(** ** The shard reading engine behind the commands *)
(* ===================================================================== *)

(** The commands [load_index], [list_chunk_items], [peek_field] and
    [open_leaf] are implemented by the application's native backend.  Its
    data model and operations are set down here from their specification
    (shard layout, record extraction, content preview, materialisation). *)

Module Engine.

(** Modelled from the spec: raw bytes, of a shard file or of a field. *)
Abbreviation bytes := (list Byte.byte).

(** Modelled from the spec: the error taxonomy of the reading engine
    (NotFound, Malformed, CorruptShard, IndexOutOfRange,
    UnsupportedCompression, ResourceLimit, IoError). *)
Inductive Error :=
| NotFound
| Malformed
| CorruptShard
| IndexOutOfRange
| UnsupportedCompression
| ResourceLimit
| IoError.

(** Modelled from the spec: every failure is typed and returned to the
    caller. *)
Inductive Result (A : Type) :=
| Ok (a : A)
| Err (e : Error).
Arguments Ok {A} a.
Arguments Err {A} e.

(** Modelled from the spec: a failure ends the request; nothing is
    retried. *)
#[global] Instance result_bind : MBind Result := λ A B k r,
  match r with
  | Ok a => k a
  | Err e => Err e
  end.

(** Modelled from the spec: a little-endian 32-bit unsigned integer. *)
Definition u32_le (b0 b1 b2 b3 : Byte.byte) : N :=
  (Byte.to_N b0 + 256 * (Byte.to_N b1
     + 256 * (Byte.to_N b2 + 256 * Byte.to_N b3)))%N.

(** Modelled from the spec: a run of little-endian u32 values; [None] when
    the run is not a whole number of 4-byte words. *)
Fixpoint decode_u32s (bs : bytes) : option (list N) :=
  match bs with
  | [] => Some []
  | b0 :: b1 :: b2 :: b3 :: rest =>
      match decode_u32s rest with
      | Some ws => Some (u32_le b0 b1 b2 b3 :: ws)
      | None => None
      end
  | _ => None
  end.

(** Modelled from the spec: "every consecutive pair must satisfy
    offset[i] <= offset[i+1]". *)
Fixpoint monotone (offsets : list N) : bool :=
  match offsets with
  | a :: (b :: _) as rest => (a <=? b)%N && monotone rest
  | _ => true
  end.

(** Modelled from the spec: "offset[0] == 0". *)
Definition first_is_zero (offsets : list N) : bool :=
  match offsets with
  | a :: _ => (a =? 0)%N
  | [] => false
  end.

(** Modelled from the spec: "offset[N] must exactly equal the remaining
    byte count". *)
Definition last_is (size : N) (offsets : list N) : bool :=
  match last offsets with
  | Some z => (z =? size)%N
  | None => false
  end.

(** Modelled from the spec: the bytes [data[lo : hi)]. *)
Definition slice (lo hi : N) (data : bytes) : bytes :=
  take (N.to_nat (hi - lo)) (drop (N.to_nat lo) data).

End Engine.

Import Engine.

(** *** ShardReader *)

Module ShardReader.

(** Modelled from the spec: an open shard: the record count, the decoded
    record offset table and the (decompressed) data region. *)
Record ShardHandle := {
  recordCount : N;
  offsets : list N;
  data : bytes;
}.

(** Modelled from the spec: a compression codec turns the stored data
    region into the decompressed one, or fails with its own typed error;
    the codec table answers [None] for a name it does not recognise, and
    [ceiling] is the configured safety limit on the decompressed size. *)
Record Codecs := {
  codec : string → option (bytes → Result bytes);
  ceiling : N;
}.

(** Modelled from the spec: the data region as the offsets are to be
    interpreted against it.  Without compression it is the stored region;
    with a codec named, the whole region is decompressed; an unrecognised
    name fails [UnsupportedCompression], a result over the ceiling fails
    [ResourceLimit]. *)
Definition data_region (cs : Codecs) (compression : option string)
    (stored : bytes) : Result bytes :=
  match compression with
  | None => Ok stored
  | Some name =>
      match codec cs name with
      | None => Err UnsupportedCompression
      | Some decompress =>
          out ← decompress stored;
          if (ceiling cs <? N.of_nat (length out))%N then Err ResourceLimit
          else Ok out
      end
  end.

(** Modelled from the spec: the ShardReader's decoding of one shard file.
    Bytes [0,4) hold the record count N; bytes [4, 4 + 4*(N+1)) the record
    offset table; the rest is the data region.  The table must be there in
    full, start at 0 and never decrease, and its last entry must equal the
    length of the data region; any violation fails [CorruptShard].  A file
    too short to hold the record count is reported the same way. *)
Definition decode_shard (cs : Codecs) (compression : option string)
    (file : bytes) : Result ShardHandle :=
  match file with
  | b0 :: b1 :: b2 :: b3 :: rest =>
      let n := u32_le b0 b1 b2 b3 in
      let table_len := (4 * (n + 1))%N in
      if (N.of_nat (length rest) <? table_len)%N then Err CorruptShard
      else
        match decode_u32s (take (N.to_nat table_len) rest) with
        | None => Err CorruptShard
        | Some offs =>
            if negb (first_is_zero offs && monotone offs) then
              Err CorruptShard
            else
              region ← data_region cs compression
                         (drop (N.to_nat table_len) rest);
              if negb (last_is (N.of_nat (length region)) offs) then
                Err CorruptShard
              else
                Ok {| recordCount := n; offsets := offs; data := region |}
        end
  | _ => Err CorruptShard
  end.

(** Modelled from the spec: [sliceRecord(i)], bounds-checked: an index
    that is not below the record count fails [IndexOutOfRange]; record [i]
    occupies [data[offset[i] : offset[i+1])]. *)
Definition sliceRecord (h : ShardHandle) (i : nat) : Result bytes :=
  if (recordCount h <=? N.of_nat i)%N then Err IndexOutOfRange
  else
    match offsets h !! i, offsets h !! S i with
    | Some lo, Some hi => Ok (slice lo hi (data h))
    | _, _ => Err CorruptShard
    end.

End ShardReader.

Import ShardReader.

(** *** RecordExtractor *)

Module RecordExtractor.

(** Modelled from the spec: [FieldMeta]. *)
Record FieldMeta := {
  fieldIndex : nat;
  byteSize : N;
}.

(** Modelled from the spec: [RecordMeta]. *)
Record RecordMeta := {
  recordIndex : nat;
  totalBytes : N;
  fields : list FieldMeta;
}.

(** Modelled from the spec: the field sub-offset table at the head of a
    multi-field record: [fieldCount + 1] u32 offsets relative to the
    payload region that follows it, under "the same monotonicity and
    final-offset invariants" as the record offset table (no decrease, last
    entry equal to the payload length); a violation fails [CorruptShard].
    Nothing is required of the first entry.  The result is the table and
    the payload. *)
Definition sub_table (fieldCount : nat) (record : bytes)
  : Result (list N * bytes) :=
  let table_len := 4 * (fieldCount + 1) in
  if bool_decide (length record < table_len) then Err CorruptShard
  else
    match decode_u32s (take table_len record) with
    | None => Err CorruptShard
    | Some subs =>
        let payload := drop table_len record in
        if monotone subs && last_is (N.of_nat (length payload)) subs
        then Ok (subs, payload)
        else Err CorruptShard
    end.

(** Modelled from the spec: [FieldMeta[j].byteSize = subOffset[j+1] -
    subOffset[j]], the fields numbered from [j]. *)
Fixpoint field_metas (j : nat) (subs : list N) : list FieldMeta :=
  match subs with
  | a :: (b :: _) as rest =>
      {| fieldIndex := j; byteSize := (b - a)%N |} :: field_metas (S j) rest
  | _ => []
  end.


(** Modelled from the spec: the fields of one record.  With one declared
    format the record's bytes are the single field; with more, the sizes
    come from the sub-offset table; with none there is no field. *)
Definition record_fields (fieldCount : nat) (record : bytes)
  : Result (list FieldMeta) :=
  match fieldCount with
  | 0 => Ok []
  | 1 => Ok [ {| fieldIndex := 0; byteSize := N.of_nat (length record) |} ]
  | _ =>
      '(subs, _) ← sub_table fieldCount record;
      Ok (field_metas 0 subs)
  end.

(** Modelled from the spec: the [RecordMeta] of record [i]; [totalBytes]
    is the full record length, sub-table included. *)
Definition record_meta (h : ShardHandle) (fieldCount : nat) (i : nat)
  : Result RecordMeta :=
  record ← sliceRecord h i;
  fs ← record_fields fieldCount record;
  Ok {| recordIndex := i; totalBytes := N.of_nat (length record);
        fields := fs |}.

(** Modelled from the spec: the [RecordMeta] of the records listed in
    [indices], in that order; the first failure ends the listing. *)
Fixpoint record_metas (h : ShardHandle) (fieldCount : nat)
    (indices : list nat) : Result (list RecordMeta) :=
  match indices with
  | [] => Ok []
  | i :: rest =>
      m ← record_meta h fieldCount i;
      ms ← record_metas h fieldCount rest;
      Ok (m :: ms)
  end.

(** Modelled from the spec: [listRecords(handle, fieldFormats)], the
    ordered [RecordMeta] of records [0 .. recordCount - 1]. *)
Definition listRecords (h : ShardHandle) (fieldFormats : list string)
  : Result (list RecordMeta) :=
  record_metas h (length fieldFormats) (seq 0 (N.to_nat (recordCount h))).

(** Modelled from the spec: [readField(handle, fieldFormats, recordIndex,
    fieldIndex)].  An out-of-range record or field index fails
    [IndexOutOfRange]; the field is the whole record when one format is
    declared, else the payload bytes between its two sub-offsets. *)
Definition readField (h : ShardHandle) (fieldFormats : list string)
    (recordIndex fieldIndex : nat) : Result bytes :=
  if (recordCount h <=? N.of_nat recordIndex)%N then Err IndexOutOfRange
  else if bool_decide (length fieldFormats ≤ fieldIndex) then
    Err IndexOutOfRange
  else
    record ← sliceRecord h recordIndex;
    if bool_decide (length fieldFormats = 1) then Ok record
    else
      '(subs, payload) ← sub_table (length fieldFormats) record;
      match subs !! fieldIndex, subs !! S fieldIndex with
      | Some lo, Some hi => Ok (slice lo hi payload)
      | _, _ => Err CorruptShard
      end.

End RecordExtractor.

Import RecordExtractor.

(** *** ContentPreviewer *)

Module ContentPreviewer.

(** Modelled from the spec: [FieldPreview]. *)
Record FieldPreview := {
  previewText : option (list N);
  hexSnippet : string;
  guessedExtension : option string;
  isBinary : bool;
  byteSize : N;
}.

(** Modelled from the spec: what the previewer is configured with: the
    fixed table from format labels to extensions, the magic-number
    signature table, the size of the classification sample ("e.g. first
    4096 bytes"), which bytes count as printable or whitespace, the
    threshold on the fraction of the others (numerator over denominator),
    the lossy UTF-8 decoder (to code points), the character budget and the
    truncation marker of a text preview, and the sample size ("e.g. first
    256 bytes") and truncation marker of a hex preview. *)
Record Config := {
  label_extension : string → option string;
  magic_table : list (bytes * string);
  sample_len : nat;
  printable : Byte.byte → bool;
  threshold_num : nat;
  threshold_den : nat;
  decode_lossy : bytes → list N;
  max_chars : nat;
  text_marker : list N;
  hex_len : nat;
  hex_marker : string;
}.

(** Modelled from the spec: a byte value within [lo .. hi]. *)
Definition in_range (lo hi : N) (b : Byte.byte) : bool :=
  ((lo <=? Byte.to_N b) && (Byte.to_N b <=? hi))%N.

(** Modelled from the spec: valid UTF-8, the second byte of a three-byte
    sequence: no overlong form, no surrogate. *)
Definition second_of_three (b0 b1 : Byte.byte) : bool :=
  if in_range 224 224 b0 then in_range 160 191 b1
  else if in_range 237 237 b0 then in_range 128 159 b1
  else in_range 128 191 b1.

(** Modelled from the spec: valid UTF-8, the second byte of a four-byte
    sequence: no overlong form, nothing above U+10FFFF. *)
Definition second_of_four (b0 b1 : Byte.byte) : bool :=
  if in_range 240 240 b0 then in_range 144 191 b1
  else if in_range 244 244 b0 then in_range 128 143 b1
  else in_range 128 191 b1.

(** Modelled from the spec: "valid as UTF-8 text": the well-formed byte
    sequences of the Unicode standard. *)
Fixpoint utf8_valid (bs : bytes) : bool :=
  match bs with
  | [] => true
  | b0 :: r0 =>
      if in_range 0 127 b0 then utf8_valid r0
      else
        match r0 with
        | [] => false
        | b1 :: r1 =>
            if in_range 194 223 b0 then in_range 128 191 b1 && utf8_valid r1
            else
              match r1 with
              | [] => false
              | b2 :: r2 =>
                  if in_range 224 239 b0 then
                    second_of_three b0 b1 && in_range 128 191 b2
                    && utf8_valid r2
                  else
                    match r2 with
                    | [] => false
                    | b3 :: r3 =>
                        in_range 240 244 b0 && second_of_four b0 b1
                        && in_range 128 191 b2 && in_range 128 191 b3
                        && utf8_valid r3
                    end
              end
        end
  end.

(** Modelled from the spec: a NUL byte. *)
Definition is_nul (b : Byte.byte) : bool := (Byte.to_N b =? 0)%N.

(** Modelled from the spec: binary when the bounded leading sample holds a
    NUL byte, or the fraction of its non-printable, non-whitespace bytes
    exceeds the threshold, or it is not valid UTF-8; text otherwise. *)
Definition classify_binary (cfg : Config) (field : bytes) : bool :=
  let sample := take (sample_len cfg) field in
  existsb is_nul sample
  || bool_decide (threshold_num cfg * length sample
                  < threshold_den cfg
                    * length (filter (λ b, printable cfg b = false) sample))
  || negb (utf8_valid sample).

(** Modelled from the spec: a signature matches "over the first bytes of
    the field". *)
Fixpoint has_prefix (signature field : bytes) : bool :=
  match signature, field with
  | [], _ => true
  | _ :: _, [] => false
  | s :: signature', b :: field' => Byte.eqb s b && has_prefix signature' field'
  end.

(** Modelled from the spec: magic-byte sniffing, the first signature of
    the table that the field starts with. *)
Fixpoint sniff (table : list (bytes * string)) (field : bytes)
  : option string :=
  match table with
  | [] => None
  | (signature, ext) :: table' =>
      if has_prefix signature field then Some ext else sniff table' field
  end.

(** Modelled from the spec: the extension guess: the label table first;
    with the hint absent or unrecognised, the magic bytes; else absent. *)
Definition guess_extension (cfg : Config) (field : bytes)
    (formatHint : option string) : option string :=
  match formatHint ≫= label_extension cfg with
  | Some ext => Some ext
  | None => sniff (magic_table cfg) field
  end.

(** Modelled from the spec: an uppercase hex digit. *)
Definition hex_digit (n : N) : Ascii.ascii :=
  Ascii.ascii_of_N (if (n <? 10)%N then 48 + n else 55 + n).

(** Modelled from the spec: a byte as an uppercase hex pair. *)
Definition hex_pair (b : Byte.byte) : string :=
  String (hex_digit (Byte.to_N b / 16))
    (String (hex_digit (Byte.to_N b mod 16)) EmptyString).

(** Modelled from the spec: space-separated hex pairs. *)
Fixpoint hex_join (bs : bytes) : string :=
  match bs with
  | [] => EmptyString
  | [b] => hex_pair b
  | b :: rest => hex_pair b +:+ " " +:+ hex_join rest
  end.

(** Modelled from the spec: the hex preview: a bounded leading sample as
    space-separated uppercase hex pairs, with the truncation marker when
    the field is larger than the sample. *)
Definition hex_preview (cfg : Config) (field : bytes) : string :=
  hex_join (take (hex_len cfg) field)
  +:+ (if bool_decide (hex_len cfg < length field) then hex_marker cfg
       else EmptyString).

(** Modelled from the spec: the text preview: the full field decoded as
    UTF-8 with lossy replacement, cut to the character budget, with the
    truncation marker when it exceeds it. *)
Definition text_preview (cfg : Config) (field : bytes) : list N :=
  let text := decode_lossy cfg field in
  if bool_decide (max_chars cfg < length text)
  then take (max_chars cfg) text ++ text_marker cfg
  else text.

(** Modelled from the spec: [preview(bytes, formatHint) -> FieldPreview].
    There is no failing case: bytes that are not text are classified as
    binary and carry the hex snippet only. *)
Definition preview (cfg : Config) (field : bytes)
    (formatHint : option string) : FieldPreview :=
  let binary := classify_binary cfg field in
  {| previewText := if binary then None else Some (text_preview cfg field);
     hexSnippet := hex_preview cfg field;
     guessedExtension := guess_extension cfg field formatHint;
     isBinary := binary;
     byteSize := N.of_nat (length field) |}.

End ContentPreviewer.

(** *** The dataset manifest *)

Module Manifest.

(** Modelled from the spec: [ShardSummary]. *)
Record ShardSummary := {
  filename : string;
  absolutePath : string;
  recordCount : N;
  byteSize : N;
  fixedDim : option N;
  existsOnDisk : bool;
}.

(** Modelled from the spec: [DatasetManifest]; the opaque [rawConfig]
    passthrough is left out. *)
Record DatasetManifest := {
  manifestPath : string;
  rootDir : string;
  fieldFormats : list string;
  compression : option string;
  nominalRecordsPerShard : option N;
  nominalShardBytes : option N;
  shards : list ShardSummary;
}.

(** Modelled from the spec: the shard an operation names by
    [shardFilename], the first of the manifest with that file name. *)
Definition find_shard (m : DatasetManifest) (shardFilename : string)
  : option ShardSummary :=
  List.find (λ sh, String.eqb (filename sh) shardFilename) (shards m).

End Manifest.

(** *** The exposed operations, over the single-slot shard cache *)

Module Operations.

Import Manifest.

(** Modelled from the spec: the state the operations run against: the
    dataset files by absolute path, the single-slot cache of the last
    decoded shard (its path and handle), the temporary directory that
    materialised fields are written to, and whether a write to a given
    temporary path goes through. *)
Record World := {
  files : gmap string bytes;
  cache : option (string * ShardHandle);
  temp : gmap string bytes;
  write_ok : string → bool;
}.

(** Modelled from the spec: the stable identity of a field, the
    manifest/shard/record/field tuple. *)
Record Identity := {
  id_manifest : string;
  id_shard : string;
  id_record : nat;
  id_field : nat;
}.

(** Modelled from the spec: the fixed configuration: the codecs and
    ceiling, the previewer's tables and bounds, and the derivation of a
    temporary path from a field identity and the guessed extension. *)
Record Env := {
  codecs : Codecs;
  previewer : ContentPreviewer.Config;
  temp_path : Identity → option string → string;
}.

(** Modelled from the spec: an operation reads and updates the world and
    returns a typed result or a typed failure. *)
Definition Op (A : Type) : Type := World → Result A * World.

(** Modelled from the spec: a failure ends the operation, the world as
    the failing step left it. *)
#[global] Instance op_bind : MBind Op := λ A B k op w,
  match op w with
  | (Ok a, w') => k a w'
  | (Err e, w') => (Err e, w')
  end.

(** Modelled from the spec: pure offset arithmetic, no I/O of its own. *)
Definition lift {A} (r : Result A) : Op A := λ w, (r, w).

(** Modelled from the spec: the decoded shard takes the single cache
    slot; what the slot held is evicted. *)
Definition install (path : string) (h : ShardHandle) (w : World) : World :=
  {| files := files w; cache := Some (path, h); temp := temp w;
     write_ok := write_ok w |}.

(** Modelled from the spec: reading and decoding a shard file afresh; a
    missing file fails [NotFound]; a decoded shard takes the cache slot,
    evicting what it held; a failure retains nothing. *)
Definition load_shard (env : Env) (compression : option string)
    (path : string) : Op ShardHandle := λ w,
  match files w !! path with
  | None => (Err NotFound, w)
  | Some file =>
      match decode_shard (codecs env) compression file with
      | Ok h => (Ok h, install path h w)
      | Err e => (Err e, w)
      end
  end.

(** Modelled from the spec: [openShard(shard)]: the cached handle when the
    slot holds this shard (decoding happens once per shard open), else a
    fresh load. *)
Definition openShard (env : Env) (compression : option string)
    (sh : ShardSummary) : Op ShardHandle := λ w,
  match cache w with
  | Some (path, h) =>
      if String.eqb path (absolutePath sh) then (Ok h, w)
      else load_shard env compression (absolutePath sh) w
  | None => load_shard env compression (absolutePath sh) w
  end.

(** Modelled from the spec: the shard an operation names; a name the
    manifest does not list is a missing shard, [NotFound]. *)
Definition resolve (m : DatasetManifest) (shardFilename : string)
  : Op ShardSummary :=
  lift (match find_shard m shardFilename with
        | Some sh => Ok sh
        | None => Err NotFound
        end).

(** Modelled from the spec: the chain of a request: resolve the shard,
    open it through the cache, compute on the handle. *)
Definition via_shard {A} (env : Env) (m : DatasetManifest)
    (shardFilename : string) (f : ShardHandle → Result A) : Op A :=
  sh ← resolve m shardFilename;
  h ← openShard env (compression m) sh;
  lift (f h).

(** Modelled from the spec: [listRecords(manifestId, shardFilename)]. *)
Definition listRecords (env : Env) (m : DatasetManifest)
    (shardFilename : string) : Op (list RecordMeta) :=
  via_shard env m shardFilename
    (λ h, RecordExtractor.listRecords h (fieldFormats m)).

(** Modelled from the spec: [readField] on the shard a request names,
    through the cache. *)
Definition fetchField (env : Env) (m : DatasetManifest)
    (shardFilename : string) (recordIndex fieldIndex : nat) : Op bytes :=
  via_shard env m shardFilename
    (λ h, readField h (fieldFormats m) recordIndex fieldIndex).

(** Modelled from the spec: [previewField(manifestId, shardFilename,
    recordIndex, fieldIndex)]: the field's bytes previewed under the
    format label declared for its position. *)
Definition previewField (env : Env) (m : DatasetManifest)
    (shardFilename : string) (recordIndex fieldIndex : nat)
  : Op ContentPreviewer.FieldPreview :=
  field ← fetchField env m shardFilename recordIndex fieldIndex;
  lift (Ok (ContentPreviewer.preview (previewer env) field
              (fieldFormats m !! fieldIndex))).

(** Modelled from the spec: the world after [field] is written in full to
    the temporary [path], replacing what was there. *)
Definition write_temp (path : string) (field : bytes) (w : World) : World :=
  {| files := files w; cache := cache w;
     temp := <[path := field]> (temp w); write_ok := write_ok w |}.

(** Modelled from the spec: [materialize(bytes, guessedExtension,
    identity)]: the bytes written in full to the temporary path derived
    from the identity and the extension, replacing what was there; a
    failed write is an [IoError]. *)
Definition materialize (env : Env) (field : bytes)
    (guessedExtension : option string) (identity : Identity) : Op string :=
  λ w,
    let path := temp_path env identity guessedExtension in
    if write_ok w path then (Ok path, write_temp path field w)
    else (Err IoError, w).

(** Modelled from the spec: [materializeField(manifestId, shardFilename,
    recordIndex, fieldIndex)]. *)
Definition materializeField (env : Env) (m : DatasetManifest)
    (shardFilename : string) (recordIndex fieldIndex : nat) : Op string :=
  field ← fetchField env m shardFilename recordIndex fieldIndex;
  let p := ContentPreviewer.preview (previewer env) field
             (fieldFormats m !! fieldIndex) in
  materialize env field (ContentPreviewer.guessedExtension p)
    {| id_manifest := manifestPath m; id_shard := shardFilename;
       id_record := recordIndex; id_field := fieldIndex |}.

End Operations.

(** *** A small dataset to run the operations on *)

Module Sample.

Import Manifest Operations.

(** The four bytes of a little-endian u32. *)
Definition u32_bytes (n : N) : bytes :=
  (λ k, default Byte.x00 (Byte.of_N ((n / 256 ^ k) mod 256))) <$> [0; 1; 2; 3]%N.

Definition text (s : string) : bytes := String.list_byte_of_string s.

(** A record of several fields: the sub-offset table, then the payloads. *)
Definition pack_record (fs : list bytes) : bytes :=
  let ends := (λ k, N.of_nat (length (concat (take k fs)))) <$> seq 0 (S (length fs)) in
  (ends ≫= u32_bytes) ++ concat fs.

(** A shard file: the record count, the record offset table, the data. *)
Definition pack_shard (records : list bytes) : bytes :=
  let ends := (λ k, N.of_nat (length (concat (take k records))))
                <$> seq 0 (S (length records)) in
  u32_bytes (N.of_nat (length records)) ++ (ends ≫= u32_bytes)
  ++ concat records.

Definition jpeg_head : bytes := [Byte.xff; Byte.xd8; Byte.xff; Byte.xe0].

(** Two records of three fields each; record 0 holds ["hello"], a JPEG
    header and ["x"]. *)
Definition shard0 : bytes :=
  pack_shard [pack_record [text "hello"; jpeg_head; text "x"];
              pack_record [text "a"; []; text "bc"]].

Definition config : ContentPreviewer.Config :=
  {| ContentPreviewer.label_extension := λ label,
       if String.eqb label "str" then Some "txt"
       else if String.eqb label "jpeg" then Some "jpg"
       else None;
     ContentPreviewer.magic_table :=
       [(jpeg_head, "jpg");
        ([Byte.x89; Byte.x50; Byte.x4e; Byte.x47], "png");
        ([Byte.x28; Byte.xb5; Byte.x2f; Byte.xfd], "zst")];
     ContentPreviewer.sample_len := 4096;
     ContentPreviewer.printable := λ b,
       ContentPreviewer.in_range 32 126 b || ContentPreviewer.in_range 9 13 b
       || ContentPreviewer.in_range 128 255 b;
     ContentPreviewer.threshold_num := 3;
     ContentPreviewer.threshold_den := 10;
     ContentPreviewer.decode_lossy := λ bs,
       (λ b, if ContentPreviewer.in_range 0 127 b then Byte.to_N b
             else 65533%N) <$> bs;
     ContentPreviewer.max_chars := 2000;
     ContentPreviewer.text_marker := [8230%N];
     ContentPreviewer.hex_len := 256;
     ContentPreviewer.hex_marker := " ..." |}.

Definition env : Env :=
  {| codecs := {| codec := λ _, None; ceiling := 1048576 |};
     previewer := config;
     temp_path := λ id ext,
       "/tmp/leaf-" +:+ id_shard id +:+ "-" +:+ pretty (id_record id)
       +:+ "-" +:+ pretty (id_field id)
       +:+ match ext with Some e => "." +:+ e | None => "" end |}.

(** A shard of two records whose offset table decreases: 0, 50, 45. *)
Definition shard1 : bytes :=
  u32_bytes 2 ++ ([0; 50; 45]%N ≫= u32_bytes) ++ replicate 45 Byte.x00.



Definition chunk0 : ShardSummary :=
  {| filename := "chunk-0.bin";
     absolutePath := "/data/chunk-0.bin";
     recordCount := 2;
     byteSize := N.of_nat (length shard0);
     fixedDim := None;
     existsOnDisk := true |}.

Definition chunk1 : ShardSummary :=
  {| filename := "chunk-1.bin";
     absolutePath := "/data/chunk-1.bin";
     recordCount := 2;
     byteSize := N.of_nat (length shard1);
     fixedDim := None;
     existsOnDisk := true |}.

Definition manifest : DatasetManifest :=
  {| manifestPath := "/data/index.json";
     rootDir := "/data";
     fieldFormats := ["unknown"; "unknown"; "unknown"];
     compression := None;
     nominalRecordsPerShard := None;
     nominalShardBytes := None;
     shards := [chunk0; chunk1] |}.

(** The handle that [shard0] decodes to. *)
Definition handle0 : ShardHandle :=
  {| ShardReader.recordCount := 2;
     offsets := [0; 26; 45]%N;
     data := drop 16 shard0 |}.

Definition world : World :=
  {| files := {[ "/data/chunk-0.bin" := shard0;
                 "/data/chunk-1.bin" := shard1 ]};
     cache := None;
     temp := ∅;
     write_ok := λ _, true |}.

End Sample.

(* ===================================================================== *)
(** ** [src/store/viewer.ts]: the store driven by its actions *)
(* ===================================================================== *)

Module StoreActions.

Import ViewerStore.

(** A call of one of the store's actions; [ATriggerLoad] carries what
    [Date.now()] answers at the call. *)
Inductive Action :=
| ASetIndexPath (path : jsstring)
| ASetChunkSelection (paths : list jsstring)
| ATriggerLoad (now : number) (index_mode : bool)
    (payload : option (list jsstring))
| ASelectChunk (filename : option jsstring)
| ASelectItem (idx : option number)
| ASelectField (idx : option number)
| ASetStatusMessage (message : option jsstring)
| AClearMode.

Definition dispatch (state : ViewerState) (a : Action) : ViewerState :=
  match a with
  | ASetIndexPath path => setIndexPath path state
  | ASetChunkSelection paths => setChunkSelection paths state
  | ATriggerLoad now index_mode payload =>
      triggerLoad now index_mode payload state
  | ASelectChunk filename => selectChunk filename state
  | ASelectItem idx => selectItem idx state
  | ASelectField idx => selectField idx state
  | ASetStatusMessage message => setStatusMessage message state
  | AClearMode => clearMode state
  end.

(** The state after a sequence of actions, taken in order. *)
Definition run (actions : list Action) (state : ViewerState) : ViewerState :=
  foldl dispatch state actions.

(** The load mode is absent, or names a trimmed, non-empty index path, or
    a non-empty list of chunk paths. *)
Definition mode_ok (state : ViewerState) : Prop :=
  match mode state with
  | None => True
  | Some (ModeIndex indexPath _) => indexPath ≠ [] ∧ trim indexPath = indexPath
  | Some (ModeChunks paths _) => paths ≠ []
  end.

End StoreActions.

(* ===================================================================== *)
(** ** [src/lib/tauri-api.ts]: the last-opened index in the preference
       store *)
(* ===================================================================== *)

Module Prefs.

Import TauriApi.

(** A call into the store plugin. *)
Inductive PluginCall :=
| StoreLoad (name : string)
| StoreSet (key : string) (value : jsstring)
| StoreSave
| StoreGet (key : string).

(** What the wrappers run against: the host's call log, the calls made to
    the store plugin, the module variable [storeInstance] ([true] once a
    store has been loaded), the entries of the loaded store, the entries
    of the store file, and whether the plugin lets a given call through
    (a call it refuses rejects with [plugin_error]). *)
Record World := {
  host_log : list Call;
  plugin_log : list PluginCall;
  storeInstance : bool;
  entries : gmap string jsstring;
  saved : gmap string jsstring;
  plugin_ok : PluginCall → bool;
}.

Definition plugin_error : string := "store plugin error".

Definition STORE_NAME : string := "litdata-viewer.bin".
Definition STORE_LAST_INDEX : string := "last_index".

Definition Pref (A : Type) : Type := World → Outcome A * World.

Definition pure {A} (a : A) : Pref A := λ w, (Returned a, w).

#[global] Instance pref_bind : MBind Pref := λ A B k p w,
  match p w with
  | (Returned a, w') => k a w'
  | (Thrown e, w') => (Thrown e, w')
  end.

(** A task of the wrappers' host, run against the host log. *)
Definition of_task {A} (t : Task A) : Pref A := λ w,
  let '(r, log) := t (host_log w) in
  (r, {| host_log := log; plugin_log := plugin_log w;
         storeInstance := storeInstance w; entries := entries w;
         saved := saved w; plugin_ok := plugin_ok w |}).

(** A plugin call: logged; refused calls reject and change nothing else. *)
Definition plugin {A} (c : PluginCall) (effect : World → A * World)
  : Pref A := λ w,
  let w1 := {| host_log := host_log w; plugin_log := plugin_log w ++ [c];
               storeInstance := storeInstance w; entries := entries w;
               saved := saved w; plugin_ok := plugin_ok w |} in
  if plugin_ok w c then let '(a, w2) := effect w1 in (Returned a, w2)
  else (Thrown plugin_error, w1).

(** [Store.load(name)]: the entries of the store file become the entries
    of the store. *)
Definition Store_load (name : string) : Pref unit :=
  plugin (StoreLoad name) (λ w,
    (tt, {| host_log := host_log w; plugin_log := plugin_log w;
            storeInstance := storeInstance w; entries := saved w;
            saved := saved w; plugin_ok := plugin_ok w |})).

(** [store.set(key, value)] *)
Definition Store_set (key : string) (value : jsstring) : Pref unit :=
  plugin (StoreSet key value) (λ w,
    (tt, {| host_log := host_log w; plugin_log := plugin_log w;
            storeInstance := storeInstance w;
            entries := <[key := value]> (entries w);
            saved := saved w; plugin_ok := plugin_ok w |})).

(** [store.save()]: the entries are written to the store file. *)
Definition Store_save : Pref unit :=
  plugin StoreSave (λ w,
    (tt, {| host_log := host_log w; plugin_log := plugin_log w;
            storeInstance := storeInstance w; entries := entries w;
            saved := entries w; plugin_ok := plugin_ok w |})).

(** [store.get(key)]; [None] is [undefined]. *)
Definition Store_get (key : string) : Pref (option jsstring) :=
  plugin (StoreGet key) (λ w, (entries w !! key, w)).

Section Wrappers.
Context {Reply : Type} (rt : Runtime Reply).

(** [storeInstance = ...]: the loaded store is kept for later calls. *)
Definition keep_instance : Pref unit := λ w,
  (Returned tt,
   {| host_log := host_log w; plugin_log := plugin_log w;
      storeInstance := true; entries := entries w;
      saved := saved w; plugin_ok := plugin_ok w |}).

Definition getStore : Pref unit := λ w,
  if storeInstance w then pure tt w
  else
    let first_use : Pref unit :=
      of_task (requireTauri rt "Reading preferences");;
      Store_load STORE_NAME;;
      keep_instance in
    first_use w.

Definition saveLastIndex (indexPath : jsstring) : Pref unit :=
  if negb (isTauri rt) then pure tt
  else
    getStore;;
    Store_set STORE_LAST_INDEX indexPath;;
    Store_save.

Definition readLastIndex : Pref (option jsstring) :=
  if negb (isTauri rt) then pure None
  else
    getStore;;
    Store_get STORE_LAST_INDEX.

End Wrappers.

(** A call of one of the two exported preference functions. *)
Inductive Request :=
| Save (indexPath : jsstring)
| Read.

(** The world after a request has settled, however it settled. *)
Definition serve {Reply} (rt : Runtime Reply) (w : World) (r : Request)
  : World :=
  match r with
  | Save indexPath => snd (saveLastIndex rt indexPath w)
  | Read => snd (readLastIndex rt w)
  end.

Definition is_load (c : PluginCall) : bool :=
  match c with StoreLoad _ => true | _ => false end.

(** How many times the plugin was asked to load a store. *)
Definition loads (w : World) : nat :=
  length (List.filter is_load (plugin_log w)).

End Prefs.

(* ===================================================================== *)
(** ** [src/app/page.tsx]: the page's query function, handlers and
       selection effects *)
(* ===================================================================== *)

Module Page.

Import TauriApi.

(** [type FieldMeta], [type ItemMeta], [type ChunkSummary] and
    [type IndexSummary] of [tauri-api.ts], with the members the page's
    logic reads; the byte counts and the opaque [configRaw] that it only
    displays are left out. *)
Record FieldMeta := {
  fieldIndex : ViewerStore.number;
}.

Record ItemMeta := {
  itemIndex : ViewerStore.number;
  fields : list FieldMeta;
}.

Record ChunkSummary := {
  filename : jsstring;
}.

Record IndexSummary := {
  indexPath : jsstring;
  rootDir : jsstring;
  chunks : list ChunkSummary;
}.

Section Handlers.
Context {Reply : Type} (rt : Runtime Reply).

(** The [queryFn] of [indexQuery], for the [mode] of the store. *)
Definition indexQueryFn (mode : option ViewerStore.LoadMode) : Task Reply :=
  match mode with
  | None => throw "No source selected."
  | Some (ViewerStore.ModeIndex indexPath _) => loadIndex rt indexPath
  | Some (ViewerStore.ModeChunks paths _) => loadChunkList rt paths
  end.

(** [handleChoose]; [rootDir] is [indexQuery.data?.rootDir], [now] what
    [Date.now()] answers inside [triggerLoad].  The result is the store
    after the handler and the host's call log. *)
Definition handleChoose (now : ViewerStore.number)
    (rootDir : option jsstring) (state : ViewerStore.ViewerState)
    (log : list Call) : ViewerStore.ViewerState * list Call :=
  match chooseIndexSource rt (ViewerStore.indexPath state) rootDir log with
  | (Returned None, log') => (state, log')
  | (Returned (Some (PickIndex indexPath)), log') =>
      (ViewerStore.triggerLoad now true None
         (ViewerStore.setIndexPath indexPath
            (ViewerStore.setStatusMessage None state)), log')
  | (Returned (Some (PickChunks paths)), log') =>
      (ViewerStore.triggerLoad now false (Some paths)
         (ViewerStore.setChunkSelection paths
            (ViewerStore.setStatusMessage None state)), log')
  | (Thrown message, log') =>
      (ViewerStore.setStatusMessage (Some (lit message)) state, log')
  end.

End Handlers.

(** [handleLoad] *)
Definition handleLoad (now : ViewerStore.number)
    (state : ViewerStore.ViewerState) : ViewerStore.ViewerState :=
  let cleared := ViewerStore.setStatusMessage None state in
  if bool_decide (0 < length (ViewerStore.chunkSelection state))
  then ViewerStore.triggerLoad now false None cleared
  else ViewerStore.triggerLoad now true None cleared.

(** The effect that drops the chunk selection once an index has loaded in
    index mode; [data] is [indexQuery.data]. *)
Definition clearSelectionEffect (data : option IndexSummary)
    (state : ViewerStore.ViewerState) : ViewerStore.ViewerState :=
  match data, ViewerStore.mode state with
  | Some _, Some (ViewerStore.ModeIndex _ _) =>
      if bool_decide (0 < length (ViewerStore.chunkSelection state))
      then ViewerStore.setChunkSelection [] state
      else state
  | _, _ => state
  end.

(** [chunk.filename === selectedChunkName]: a string never equals [null]. *)
Definition name_is (selected : option jsstring) (c : ChunkSummary) : bool :=
  match selected with
  | Some name => bool_decide (filename c = name)
  | None => false
  end.

(** [a || b] on [string | undefined | null] values: the first one that is
    a non-empty string. *)
Definition or_else (a b : option jsstring) : option jsstring :=
  match a with
  | Some s => if truthy s then Some s else b
  | None => b
  end.

(** [const nextChunk = chunks.find(...)?.filename || chunks[0]?.filename
    || null] *)
Definition next_chunk (d : IndexSummary) (selectedChunkName : option jsstring)
  : option jsstring :=
  or_else (filename <$> List.find (name_is selectedChunkName) (chunks d))
    (or_else (filename <$> head (chunks d)) None).

(** The effect that keeps the chunk selection within the loaded index;
    [data] is [indexQuery.data]. *)
Definition chunkEffect (data : option IndexSummary)
    (state : ViewerStore.ViewerState) : ViewerStore.ViewerState :=
  match data with
  | None => ViewerStore.selectChunk None state
  | Some d =>
      let selectedChunkName := ViewerStore.selectedChunkName state in
      let nextChunk := next_chunk d selectedChunkName in
      if bool_decide (nextChunk ≠ selectedChunkName)
      then ViewerStore.selectChunk nextChunk state
      else state
  end.

(** [x === selected] on an index: a number never equals [null]. *)
Definition index_is (selected : option ViewerStore.number)
    (x : ViewerStore.number) : bool :=
  match selected with
  | Some i => bool_decide (x = i)
  | None => false
  end.

(** The effect that keeps the item selection within the listed items;
    [data] is [itemsQuery.data]. *)
Definition itemEffect (data : option (list ItemMeta))
    (state : ViewerStore.ViewerState) : ViewerStore.ViewerState :=
  let items := default [] data in
  match items with
  | [] => ViewerStore.selectItem None state
  | first :: _ =>
      if existsb (λ item, index_is (ViewerStore.selectedItemIndex state)
                            (itemIndex item)) items
      then state
      else ViewerStore.selectItem (Some (itemIndex first)) state
  end.

(** The memo [selectedItem]:
    [itemsQuery.data?.find(item => item.itemIndex === selectedItemIndex)
     ?? null]. *)
Definition selectedItem (data : option (list ItemMeta))
    (state : ViewerStore.ViewerState) : option ItemMeta :=
  data ≫= List.find (λ item, index_is (ViewerStore.selectedItemIndex state)
                              (itemIndex item)).

(** The effect that keeps the field selection within the selected item. *)
Definition fieldEffect (selected : option ItemMeta)
    (state : ViewerStore.ViewerState) : ViewerStore.ViewerState :=
  match selected with
  | None => ViewerStore.selectField None state
  | Some item =>
      if existsb (λ field, index_is (ViewerStore.selectedFieldIndex state)
                             (fieldIndex field)) (fields item)
      then state
      else ViewerStore.selectField (fieldIndex <$> head (fields item)) state
  end.

(** [/[\\/]/]: a path separator, slash or backslash. *)
Definition is_separator (c : N) : bool := ((c =? 47) || (c =? 92))%N.

(** [p.split(/[\\/]/)]: the segments between separators, from the state
    of a scan that holds the segment being read in [current]. *)
Fixpoint split_from (current : jsstring) (p : jsstring) : list jsstring :=
  match p with
  | [] => [current]
  | c :: rest =>
      if is_separator c then current :: split_from [] rest
      else split_from (current ++ [c]) rest
  end.

Definition split_separators (p : jsstring) : list jsstring := split_from [] p.

(** [p.split(/[\\/]/).pop() ?? p]: the name shown for a selected chunk. *)
Definition shown_name (p : jsstring) : jsstring :=
  default p (last (split_separators p)).

End Page.

(** *** A store, an index and a preference world to run the page on *)

Module PageSample.

(** A store with an index path typed in and one chunk file pending. *)
Definition pending : ViewerStore.ViewerState :=
  ViewerStore.setChunkSelection [lit "/d/a.bin"]
    (ViewerStore.setIndexPath (lit " /data/index.json ") ViewerStore.initial).

(** A loaded index of two chunks. *)
Definition index : Page.IndexSummary :=
  {| Page.indexPath := lit "/data/index.json";
     Page.rootDir := lit "/data";
     Page.chunks := [ {| Page.filename := lit "chunk-0.bin" |};
                      {| Page.filename := lit "chunk-1.bin" |} ] |}.

(** A session with no store loaded, an empty store file, and a plugin
    that lets every call through. *)
Definition fresh : Prefs.World :=
  {| Prefs.host_log := []; Prefs.plugin_log := [];
     Prefs.storeInstance := false;
     Prefs.entries := ∅; Prefs.saved := ∅;
     Prefs.plugin_ok := λ _, true |}.

(** A session that holds a store instance, with a plugin that refuses
    every call. *)
Definition loaded_refusing : Prefs.World :=
  {| Prefs.host_log := []; Prefs.plugin_log := [];
     Prefs.storeInstance := true;
     Prefs.entries := ∅; Prefs.saved := ∅;
     Prefs.plugin_ok := λ _, false |}.

End PageSample.

(* ===================================================================== *)
(** * Properties *)
(* ===================================================================== *)

(** ** String operations meet their ECMAScript descriptions *)

Module JsStringFacts.

Lemma startsWith_iff (s t : jsstring) :
  startsWith s t = true ↔ ∃ q, s = t ++ q.
Proof.
  revert s. induction t as [|c t IH]; intros s; simpl.
  - split; [eauto | done].
  - destruct s as [|d s].
    + split; [done | intros [q Hq]; discriminate].
    + rewrite andb_true_iff, N.eqb_eq, IH. split.
      * intros [-> [q ->]]. by exists q.
      * intros [q Hq]. injection Hq as -> ->. eauto.
Qed.

Lemma endsWith_iff (s t : jsstring) :
  endsWith s t = true ↔ ∃ p, s = p ++ t.
Proof.
  unfold endsWith. rewrite startsWith_iff. split.
  - intros [q Hq]. exists (reverse q).
    apply (inj reverse). by rewrite Hq, reverse_app, reverse_involutive.
  - intros [p ->]. exists (reverse p). by rewrite reverse_app.
Qed.

Lemma includes_iff (s t : jsstring) :
  includes s t = true ↔ ∃ p q, s = p ++ t ++ q.
Proof.
  induction s as [|c s IH]; simpl; rewrite orb_true_iff, startsWith_iff.
  - split.
    + intros [[q Hq]|?]; [|done]. by exists [], q.
    + intros (p & q & Hpq). left. destruct p; [by exists q|done].
  - rewrite IH. split.
    + intros [[q Hq]|(p & q & ->)]; [by exists [], q|by exists (c :: p), q].
    + intros (p & q & Hpq). destruct p as [|c' p]; simpl in Hpq.
      * left. by exists q.
      * right. injection Hpq as -> ->. eauto.
Qed.

Lemma endsWith_includes (s t : jsstring) :
  endsWith s t = true → includes s t = true.
Proof.
  rewrite endsWith_iff, includes_iff. intros [p ->].
  exists p, []. by rewrite app_nil_r.
Qed.

Lemma trimStart_nil_iff (s : jsstring) :
  trimStart s = [] ↔ forallb is_white_space s = true.
Proof.
  induction s as [|c s IH]; simpl; [done|].
  destruct (is_white_space c); simpl; [done|]. split; discriminate.
Qed.

Lemma trimStart_head (s : jsstring) c r :
  trimStart s = c :: r → is_white_space c = false.
Proof.
  induction s as [|d s IH]; simpl; [done|].
  destruct (is_white_space d) eqn:Hd; [done|]. by intros [= <- _].
Qed.

Lemma forallb_reverse {A} (f : A → bool) (l : list A) :
  forallb f (reverse l) = forallb f l.
Proof.
  induction l as [|a l IH]; [done|].
  rewrite reverse_cons, forallb_app, IH. simpl.
  rewrite andb_true_r. apply andb_comm.
Qed.

(** The trimmed form is empty exactly for strings of white space only. *)
Lemma trim_nil_iff (s : jsstring) :
  trim s = [] ↔ forallb is_white_space s = true.
Proof.
  unfold trim, trimEnd. rewrite <- trimStart_nil_iff. split.
  - intros H. apply (f_equal reverse) in H.
    rewrite reverse_involutive in H. change (reverse []) with (@nil N) in H.
    apply trimStart_nil_iff in H. rewrite forallb_reverse in H.
    destruct (trimStart s) as [|c r] eqn:Hs; [done|].
    apply trimStart_head in Hs. simpl in H. by rewrite Hs in H.
  - by intros ->.
Qed.

Lemma truthy_false_iff (s : jsstring) : truthy s = false ↔ s = [].
Proof. by destruct s. Qed.

End JsStringFacts.

(** ** The selection store *)

Module ViewerStoreFacts.

Import ViewerStore.

(** C8. Every [selectChunk] leaves [selectedItemIndex] and
    [selectedFieldIndex] at [null], and every [selectItem] leaves
    [selectedFieldIndex] at [null], whatever the state before and whatever
    is selected (a name, an index, or [null]); the selection made is the
    one stored and the higher levels stay as they were. *)
Theorem selection_change_clears_lower_levels (s : ViewerState) :
  (∀ filename,
     selectedChunkName (selectChunk filename s) = filename
     ∧ selectedItemIndex (selectChunk filename s) = None
     ∧ selectedFieldIndex (selectChunk filename s) = None)
  ∧ (∀ idx,
       selectedChunkName (selectItem idx s) = selectedChunkName s
       ∧ selectedItemIndex (selectItem idx s) = idx
       ∧ selectedFieldIndex (selectItem idx s) = None).
Proof. split; intros; unfold selectChunk, selectItem, set; simpl; done. Qed.

(** A stale field selection is dropped by a chunk change: the state after
    [selectItem 1; selectField 3; selectChunk "a"] selects no item and no
    field. *)
Example stale_field_dropped :
  let s := selectChunk (Some (lit "a"))
             (selectField (Some 3%Z) (selectItem (Some 1%Z) initial)) in
  selectedItemIndex s = None ∧ selectedFieldIndex s = None.
Proof. done. Qed.

End ViewerStoreFacts.

(** ** The command wrappers *)

Module TauriApiFacts.

Import TauriApi Hosts.

Section Facts.
Context {Reply : Type}.
Implicit Types (rt : Runtime Reply) (log : list Call).

Lemma requireTauri_inside rt task log :
  tauri rt = true → requireTauri rt task log = (Returned tt, log).
Proof. intros H. unfold requireTauri, isTauri. by rewrite H. Qed.

Lemma requireTauri_outside rt task log :
  tauri rt = false →
  requireTauri rt task log
  = (Thrown (task +:+ " requires the Tauri runtime."), log).
Proof. intros H. unfold requireTauri, isTauri. by rewrite H. Qed.

(** Outside the Tauri runtime both wrappers throw before they look at
    their argument, and ask nothing of the host. *)
Lemma load_wrappers_outside rt log :
  tauri rt = false →
  (∀ indexPath,
     loadIndex rt indexPath log
     = (Thrown "Loading index requires the Tauri runtime.", log))
  ∧ (∀ paths,
       loadChunkList rt paths log
       = (Thrown "Loading chunks requires the Tauri runtime.", log)).
Proof.
  intros H. split; intros;
    unfold loadIndex, loadChunkList, mbind, task_bind;
    by rewrite (requireTauri_outside _ _ _ H).
Qed.

(** C9, as the code has it.  Degenerate input is rejected without a call
    to the backend: an index path whose trimmed form is empty makes
    [loadIndex] throw, and the empty list makes [loadChunkList] throw, the
    call log unchanged.  Inside the Tauri runtime every other input
    invokes [load_index] with the trimmed path, resp. [load_chunk_list]
    with the given list, exactly once, and settles as the backend does.
    Outside it both wrappers throw without invoking anything. *)
Theorem load_wrappers_reject_then_invoke rt log :
  (∀ indexPath, trim indexPath = [] →
     ∃ message, loadIndex rt indexPath log = (Thrown message, log))
  ∧ (∃ message, loadChunkList rt [] log = (Thrown message, log))
  ∧ (tauri rt = true →
       (∀ indexPath, trim indexPath ≠ [] →
          loadIndex rt indexPath log
          = (backend rt "load_index" (ArgsIndexPath (trim indexPath)),
             log ++ [CallInvoke "load_index" (ArgsIndexPath (trim indexPath))]))
       ∧ (∀ paths, paths ≠ [] →
            loadChunkList rt paths log
            = (backend rt "load_chunk_list" (ArgsPaths paths),
               log ++ [CallInvoke "load_chunk_list" (ArgsPaths paths)])))
  ∧ (tauri rt = false →
       ∀ indexPath paths,
         (∃ message, loadIndex rt indexPath log = (Thrown message, log))
         ∧ (∃ message, loadChunkList rt paths log = (Thrown message, log))).
Proof.
  destruct (tauri rt) eqn:Ht.
  - split; [|split; [|split; [intros _; split|done]]].
    + intros indexPath Hnil. eexists.
      unfold loadIndex, mbind, task_bind.
      rewrite (requireTauri_inside _ _ _ Ht), Hnil. done.
    + eexists. unfold loadChunkList, mbind, task_bind.
      rewrite (requireTauri_inside _ _ _ Ht). done.
    + intros indexPath Hne. unfold loadIndex, mbind, task_bind.
      rewrite (requireTauri_inside _ _ _ Ht).
      destruct (trim indexPath) eqn:Htrim; done.
    + intros paths Hne. unfold loadChunkList, mbind, task_bind.
      rewrite (requireTauri_inside _ _ _ Ht).
      destruct paths; done.
  - destruct (load_wrappers_outside rt log Ht) as [HI HC].
    split; [|split; [|split; [done|intros _ indexPath paths; split]]];
      intros; rewrite ?HI, ?HC; eauto.
Qed.

(** The default path of the dialog is always resolved: a failure of the
    path API is caught. *)
Lemma resolveDefaultDialogPath_returns rt path rootDir log :
  ∃ d log', resolveDefaultDialogPath rt path rootDir log = (Returned d, log').
Proof.
  unfold resolveDefaultDialogPath.
  repeat (match goal with |- context [if ?c then _ else _] => destruct c end;
          try (by eexists _, _));
    unfold try_catch, mbind, task_bind, dirname, host;
    destruct (dirname_api rt _); by eexists _, _.
Qed.

(** C10. Inside the Tauri runtime [chooseIndexSource] opens the dialog
    once and, when the dialog resolves, returns according to what was
    picked: [null] for a [null] pick; kind "chunks" with all the paths for
    a pick of more than one path; kind "chunks" with the one path for a
    single path that ends with ".bin" or ".zst" or contains ".bin"; kind
    "index" with the path for any other single path. *)
Theorem chooseIndexSource_classifies rt currentPath lastRoot log :
  tauri rt = true →
  ∃ defaultPath log',
    last log' = Some (CallOpenDialog defaultPath)
    ∧ match dialog_api rt defaultPath with
      | Thrown e =>
          chooseIndexSource rt currentPath lastRoot log = (Thrown e, log')
      | Returned picked =>
          ∃ result,
            chooseIndexSource rt currentPath lastRoot log
            = (Returned result, log')
            ∧ (picked = PickNull → result = None)
            ∧ (∀ paths, picked = PickArray paths → 1 < length paths →
                 result = Some (PickChunks paths))
            ∧ (∀ path, single_pick picked path →
                 endsWith path (lit ".bin") = true
                 ∨ endsWith path (lit ".zst") = true
                 ∨ includes path (lit ".bin") = true →
                 result = Some (PickChunks [path]))
            ∧ (∀ path, single_pick picked path →
                 endsWith path (lit ".bin") = false →
                 endsWith path (lit ".zst") = false →
                 includes path (lit ".bin") = false →
                 result = Some (PickIndex path))
      end.
Proof.
  intros Ht.
  destruct (resolveDefaultDialogPath_returns rt (Some currentPath) lastRoot log)
    as (d & log1 & Hd).
  set (opts := match d with
               | Some d' => if truthy d' then Some d' else None
               | None => None
               end).
  exists opts, (log1 ++ [CallOpenDialog opts]).
  split; [by rewrite last_snoc|].
  unfold chooseIndexSource, mbind, task_bind.
  rewrite (requireTauri_inside _ _ _ Ht), Hd.
  unfold openDialog, host. fold opts.
  destruct (dialog_api rt opts) as [picked|e]; [|done].
  set (log' := log1 ++ [CallOpenDialog opts]).
  assert (∃ result,
    (if picked_falsy picked then ret None
     else match several picked with
          | Some paths => ret (Some (PickChunks paths))
          | None =>
              match first_of picked with
              | Some first =>
                  if chunk_like first then ret (Some (PickChunks [first]))
                  else ret (Some (PickIndex first))
              | None => ret None
              end
          end) log' = (Returned result, log')
    ∧ result =
      if picked_falsy picked then None
      else match several picked with
           | Some paths => Some (PickChunks paths)
           | None =>
               match first_of picked with
               | Some first =>
                   if chunk_like first then Some (PickChunks [first])
                   else Some (PickIndex first)
               | None => None
               end
           end) as (result & Hrun & Hres).
  { destruct (picked_falsy picked); [by eexists|].
    destruct (several picked); [by eexists|].
    destruct (first_of picked); [|by eexists].
    destruct (chunk_like _); by eexists. }
  exists result. split; [done|]. subst result.
  split; [by intros ->|]. split; [|split].
  - intros paths -> Hlen. simpl. by rewrite bool_decide_true.
  - intros path [-> | [-> Hne]] Hc.
    + simpl. unfold chunk_like.
      destruct Hc as [-> | [-> | ->]]; by rewrite ?orb_true_r.
    + simpl. destruct path; [done|]. simpl. unfold chunk_like.
      destruct Hc as [-> | [-> | ->]]; by rewrite ?orb_true_r.
  - intros path [-> | [-> Hne]] H1 H2 H3.
    + simpl. unfold chunk_like. by rewrite H1, H2, H3.
    + simpl. destruct path; [done|]. simpl. unfold chunk_like.
      by rewrite H1, H2, H3.
Qed.

(** What is not a picked path yields [null]: the empty list and the bare
    empty string. *)
Lemma chooseIndexSource_nothing_picked rt currentPath lastRoot log picked :
  tauri rt = true →
  (∀ defaultPath, dialog_api rt defaultPath = Returned picked) →
  picked = PickArray [] ∨ picked = PickString [] →
  fst (chooseIndexSource rt currentPath lastRoot log) = Returned None.
Proof.
  intros Ht Hdialog Hp.
  destruct (resolveDefaultDialogPath_returns rt (Some currentPath) lastRoot log)
    as (d & log1 & Hd).
  unfold chooseIndexSource, mbind, task_bind.
  rewrite (requireTauri_inside _ _ _ Ht), Hd.
  unfold openDialog, host. rewrite Hdialog.
  by destruct Hp as [-> | ->].
Qed.

(** Outside the Tauri runtime no dialog is opened. *)
Lemma chooseIndexSource_outside rt currentPath lastRoot log :
  tauri rt = false →
  chooseIndexSource rt currentPath lastRoot log
  = (Thrown "Choosing files requires the Tauri runtime.", log).
Proof.
  intros Ht. unfold chooseIndexSource, mbind, task_bind.
  by rewrite (requireTauri_outside _ _ _ Ht).
Qed.

End Facts.

(** C9 as stated fails outside the Tauri runtime: ["index.json"] is not
    degenerate, yet [loadIndex] throws and nothing is invoked; the same
    for a one-element path list. *)
Lemma load_wrappers_outside_tauri_invoke_nothing :
  trim (lit "index.json") ≠ []
  ∧ loadIndex browser (lit "index.json") []
    = (Thrown "Loading index requires the Tauri runtime.", [])
  ∧ loadChunkList browser [lit "chunk-0.bin"] []
    = (Thrown "Loading chunks requires the Tauri runtime.", []).
Proof. repeat split; done. Qed.

Lemma load_wrappers_reject_then_invoke_witness :
  loadIndex (desktop PickNull) (lit "  /data/index.json ") []
  = (Returned 7,
     [CallInvoke "load_index" (ArgsIndexPath (lit "/data/index.json"))])
  ∧ loadChunkList (desktop PickNull) [lit "chunk-0.bin"] []
    = (Returned 7,
       [CallInvoke "load_chunk_list" (ArgsPaths [lit "chunk-0.bin"])]).
Proof.
  pose proof (load_wrappers_reject_then_invoke (desktop PickNull) [])
    as (_ & _ & H & _).
  destruct (H eq_refl) as [HI HC]. split.
  - apply (HI (lit "  /data/index.json ")). vm_compute. discriminate.
  - apply (HC [lit "chunk-0.bin"]). discriminate.
Defined.

(** The four cases of C10 on concrete picks. *)
Lemma chooseIndexSource_classifies_witness :
  fst (chooseIndexSource (desktop PickNull) (lit "/data/index.json") None [])
  = Returned None
  ∧ fst (chooseIndexSource
           (desktop (PickArray [lit "/data/a.bin"; lit "/data/b.bin"]))
           (lit "/data/index.json") None [])
    = Returned (Some (PickChunks [lit "/data/a.bin"; lit "/data/b.bin"]))
  ∧ fst (chooseIndexSource (desktop (PickArray [lit "/data/a.bin.zst"]))
           (lit "/data/index.json") None [])
    = Returned (Some (PickChunks [lit "/data/a.bin.zst"]))
  ∧ fst (chooseIndexSource (desktop (PickArray [lit "/data/index.json"]))
           [] None [])
    = Returned (Some (PickIndex (lit "/data/index.json"))).
Proof.
  split; [|split; [|split]].
  - destruct (chooseIndexSource_classifies (desktop PickNull)
                (lit "/data/index.json") None [] eq_refl)
      as (d & l & _ & r & -> & H & _).
    simpl. f_equal. by apply H.
  - destruct (chooseIndexSource_classifies
                (desktop (PickArray [lit "/data/a.bin"; lit "/data/b.bin"]))
                (lit "/data/index.json") None [] eq_refl)
      as (d & l & _ & r & -> & _ & H & _).
    simpl. f_equal. apply H; [done|simpl; lia].
  - destruct (chooseIndexSource_classifies
                (desktop (PickArray [lit "/data/a.bin.zst"]))
                (lit "/data/index.json") None [] eq_refl)
      as (d & l & _ & r & -> & _ & _ & H & _).
    simpl. f_equal. apply H; [by left|]. right; left. by vm_compute.
  - destruct (chooseIndexSource_classifies
                (desktop (PickArray [lit "/data/index.json"]))
                [] None [] eq_refl)
      as (d & l & _ & r & -> & _ & _ & _ & H).
    simpl. f_equal. apply H; [by left|by vm_compute..].
Defined.

End TauriApiFacts.

(** ** Offset tables *)

Module OffsetFacts.

Lemma decode_u32s_inv (bs : bytes) (ws : list N) :
  decode_u32s bs = Some ws →
  match ws with
  | [] => bs = []
  | w :: ws' =>
      ∃ b0 b1 b2 b3 rest,
        bs = b0 :: b1 :: b2 :: b3 :: rest ∧ w = u32_le b0 b1 b2 b3
        ∧ decode_u32s rest = Some ws'
  end.
Proof.
  destruct bs as [|b0 [|b1 [|b2 [|b3 rest]]]]; simpl; try done.
  - by intros [= <-].
  - destruct (decode_u32s rest) as [ws'|] eqn:Hrest; [|done].
    intros [= <-]. by exists b0, b1, b2, b3, rest.
Qed.

Lemma decode_u32s_length (bs : bytes) (ws : list N) :
  decode_u32s bs = Some ws → length bs = 4 * length ws.
Proof.
  revert bs. induction ws as [|w ws IH]; intros bs H;
    apply decode_u32s_inv in H.
  - by subst.
  - destruct H as (b0 & b1 & b2 & b3 & rest & -> & _ & Hrest).
    apply IH in Hrest. simpl. lia.
Qed.

Lemma decode_u32s_total (n : nat) (bs : bytes) :
  length bs = 4 * n → ∃ ws, decode_u32s bs = Some ws ∧ length ws = n.
Proof.
  revert bs. induction n as [|n IH]; intros bs Hlen.
  - destruct bs; [by exists []|simpl in Hlen; lia].
  - destruct bs as [|b0 [|b1 [|b2 [|b3 rest]]]]; simpl in Hlen; try lia.
    destruct (IH rest) as (ws & Hws & Hn); [lia|].
    exists (u32_le b0 b1 b2 b3 :: ws). simpl. rewrite Hws. by rewrite <- Hn.
Qed.

(** [monotone] says what it should: no entry exceeds its successor. *)
Lemma monotone_iff (offs : list N) :
  monotone offs = true
  ↔ ∀ i a b, offs !! i = Some a → offs !! S i = Some b → (a ≤ b)%N.
Proof.
  induction offs as [|a [|b rest] IH]; simpl.
  - split; [|done]. intros _ i x y Hx. by rewrite lookup_nil in Hx.
  - split; [|done]. intros _ i x y _ Hy. by rewrite lookup_nil in Hy.
  - rewrite andb_true_iff, N.leb_le, IH. split.
    + intros [Hab Hrest] [|i] x y Hx Hy.
      * simpl in *. by simplify_eq.
      * by apply (Hrest i).
    + intros H. split; [by apply (H 0)|].
      intros i x y Hx Hy. by apply (H (S i)).
Qed.

Lemma monotone_le (offs : list N) i j a b :
  monotone offs = true → i ≤ j →
  offs !! i = Some a → offs !! j = Some b → (a ≤ b)%N.
Proof.
  rewrite monotone_iff. intros Hmono Hij. revert b.
  induction Hij as [|j Hij IH]; intros b Ha Hb.
  - by simplify_eq.
  - destruct (lookup_lt_is_Some_2 offs j) as [c Hc].
    { apply lookup_lt_Some in Hb. lia. }
    etrans; [by apply IH|]. by apply (Hmono j).
Qed.

Lemma first_is_zero_iff (offs : list N) :
  first_is_zero offs = true ↔ offs !! 0 = Some 0%N.
Proof.
  destruct offs as [|a ?]; simpl; [done|].
  rewrite N.eqb_eq. split; [by intros ->|by intros [= ->]].
Qed.

Lemma last_is_iff (size : N) (offs : list N) :
  last_is size offs = true ↔ last offs = Some size.
Proof.
  unfold last_is. destruct (last offs) as [z|]; [|done].
  rewrite N.eqb_eq. split; [by intros ->|by intros [= ->]].
Qed.

Lemma length_slice (lo hi : N) (data : bytes) :
  (lo ≤ hi)%N → (hi ≤ N.of_nat (length data))%N →
  N.of_nat (length (slice lo hi data)) = (hi - lo)%N.
Proof.
  intros Hle Hhi. unfold slice. rewrite length_take, length_drop. lia.
Qed.

Lemma field_metas_cons (j : nat) (a b : N) (rest : list N) :
  field_metas j (a :: b :: rest)
  = {| fieldIndex := j; byteSize := (b - a)%N |}
      :: field_metas (S j) (b :: rest).
Proof. done. Qed.



Lemma field_metas_length (j : nat) (subs : list N) :
  length (field_metas j subs) = length subs - 1.
Proof.
  revert j. induction subs as [|a [|b rest] IH]; intros j; try done.
  rewrite field_metas_cons, !length_cons, IH. simpl. lia.
Qed.

Lemma field_metas_lookup (j k : nat) (subs : list N) fm :
  field_metas j subs !! k = Some fm →
  ∃ a b, subs !! k = Some a ∧ subs !! S k = Some b
         ∧ fm = {| fieldIndex := j + k; byteSize := (b - a)%N |}.
Proof.
  revert j k. induction subs as [|a [|b rest] IH]; intros j k; try done.
  rewrite field_metas_cons. destruct k as [|k].
  - intros [= <-]. exists a, b. by rewrite Nat.add_0_r.
  - intros H. apply IH in H as (x & y & Hx & Hy & ->).
    exists x, y. repeat split; [done..|]. f_equal. lia.
Qed.

End OffsetFacts.

(** ** ShardReader *)

Module ShardReaderFacts.

Import OffsetFacts Manifest Operations.

(** What it takes for a file with a four-byte header to decode. *)
Lemma decode_shard_ok_iff cs compression b0 b1 b2 b3 rest h :
  let n := u32_le b0 b1 b2 b3 in
  let table_len := N.to_nat (4 * (n + 1)) in
  decode_shard cs compression (b0 :: b1 :: b2 :: b3 :: rest) = Ok h
  ↔ table_len ≤ length rest
    ∧ decode_u32s (take table_len rest) = Some (offsets h)
    ∧ first_is_zero (offsets h) = true
    ∧ monotone (offsets h) = true
    ∧ data_region cs compression (drop table_len rest) = Ok (data h)
    ∧ last_is (N.of_nat (length (data h))) (offsets h) = true
    ∧ ShardReader.recordCount h = n.
Proof.
  intros n table_len. unfold decode_shard. fold n. fold table_len.
  destruct (N.ltb_spec (N.of_nat (length rest)) (4 * (n + 1))) as [Hlt|Hge].
  { split; [done|]. intros (Hlen & _). lia. }
  destruct (decode_u32s (take table_len rest)) as [offs|] eqn:Hdec.
  2: { split; [done|]. by intros (_ & ? & _). }
  destruct (first_is_zero offs && monotone offs) eqn:Hfm; simpl.
  2: { split; [done|]. intros (_ & [= ->] & H0 & Hm & _).
       by rewrite H0, Hm in Hfm. }
  apply andb_true_iff in Hfm as [H0 Hm].
  unfold mbind, result_bind.
  destruct (data_region cs compression (drop table_len rest))
    as [region|e] eqn:Hreg.
  2: { split; [done|]. by intros (_ & _ & _ & _ & ? & _). }
  destruct (last_is (N.of_nat (length region)) offs) eqn:Hlast; simpl.
  - split.
    + intros [= <-]. simpl. repeat split; try done. unfold table_len. lia.
    + intros (_ & [= ->] & _ & _ & [= ->] & _ & Hn).
      destruct h; simpl in *. by subst.
  - split; [done|]. intros (_ & [= ->] & _ & _ & [= ->] & Hl & _).
    by rewrite Hl in Hlast.
Qed.

(** A file with a four-byte header that does not decode for a reason
    other than its data region fails [CorruptShard]. *)
Lemma decode_shard_corrupt cs compression b0 b1 b2 b3 rest :
  let n := u32_le b0 b1 b2 b3 in
  let table_len := N.to_nat (4 * (n + 1)) in
  length rest < table_len
  ∨ (∃ offs, decode_u32s (take table_len rest) = Some offs
             ∧ (first_is_zero offs = false ∨ monotone offs = false))
  ∨ (∃ offs region,
       decode_u32s (take table_len rest) = Some offs
       ∧ data_region cs compression (drop table_len rest) = Ok region
       ∧ last_is (N.of_nat (length region)) offs = false) →
  decode_shard cs compression (b0 :: b1 :: b2 :: b3 :: rest)
  = Err CorruptShard.
Proof.
  intros n table_len H. unfold decode_shard. fold n. fold table_len.
  destruct (N.ltb_spec (N.of_nat (length rest)) (4 * (n + 1))) as [Hlt|Hge];
    [done|].
  destruct H as [Hlen|[(offs & -> & Hbad)|(offs & region & -> & Hreg & Hlast)]].
  - unfold table_len in Hlen. lia.
  - by destruct Hbad as [-> | ->]; rewrite ?andb_false_r.
  - destruct (first_is_zero offs && monotone offs); [|done]. simpl.
    by rewrite Hreg; simpl; rewrite Hlast.
Qed.

Lemma last_lookup_length {A} (l : list A) (n : nat) :
  length l = S n → last l = l !! n.
Proof. intros H. rewrite last_lookup, H. done. Qed.

(** A load that is not served from the cache decodes the file. *)
Lemma openShard_fresh env compression sh w file :
  (∀ h, cache w ≠ Some (absolutePath sh, h)) →
  files w !! absolutePath sh = Some file →
  fst (openShard env compression sh w)
  = decode_shard (codecs env) compression file.
Proof.
  intros Hmiss Hfile. unfold openShard.
  assert (fst (load_shard env compression (absolutePath sh) w)
          = decode_shard (codecs env) compression file) as Hload.
  { unfold load_shard. rewrite Hfile. by destruct (decode_shard _ _ _). }
  destruct (cache w) as [[path h]|] eqn:Hc; [|done].
  destruct (String.eqb_spec path (absolutePath sh)) as [->|]; [|done].
  by destruct (Hmiss h).
Qed.

(** C1. When [openShard] reads a shard file (N its declared record count,
    the table the 4*(N+1) bytes after the count, the data region what
    follows, decompressed): a handle is returned only if the table is
    there in full and holds N+1 offsets, [offset[0] = 0], every
    [offset[i] <= offset[i+1]], and [offset[N]] is the byte length of the
    data region; and each violation (table cut short, a first offset that
    is not 0, a decreasing pair, a last offset that differs from the
    length of the data region) makes it fail with [CorruptShard]. *)
Theorem openShard_validates_offset_table
    env compression sh w b0 b1 b2 b3 rest :
  (∀ h, cache w ≠ Some (absolutePath sh, h)) →
  files w !! absolutePath sh = Some (b0 :: b1 :: b2 :: b3 :: rest) →
  let n := u32_le b0 b1 b2 b3 in
  let table := take (N.to_nat (4 * (n + 1))) rest in
  let stored := drop (N.to_nat (4 * (n + 1))) rest in
  let opened := fst (openShard env compression sh w) in
  (∀ h, opened = Ok h →
     ShardReader.recordCount h = n
     ∧ N.of_nat (length table) = (4 * (n + 1))%N
     ∧ decode_u32s table = Some (offsets h)
     ∧ N.of_nat (length (offsets h)) = (n + 1)%N
     ∧ data_region (codecs env) compression stored = Ok (data h)
     ∧ offsets h !! 0 = Some 0%N
     ∧ (∀ i a b, offsets h !! i = Some a → offsets h !! S i = Some b →
          (a ≤ b)%N)
     ∧ offsets h !! N.to_nat n = Some (N.of_nat (length (data h))))
  ∧ (N.of_nat (length table) ≠ (4 * (n + 1))%N → opened = Err CorruptShard)
  ∧ (∀ offs, decode_u32s table = Some offs →
       offs !! 0 ≠ Some 0%N
       ∨ (∃ i a b, offs !! i = Some a ∧ offs !! S i = Some b ∧ (b < a)%N) →
       opened = Err CorruptShard)
  ∧ (∀ offs region,
       decode_u32s table = Some offs →
       data_region (codecs env) compression stored = Ok region →
       offs !! N.to_nat n ≠ Some (N.of_nat (length region)) →
       opened = Err CorruptShard).
Proof.
  intros Hmiss Hfile n table stored opened.
  assert (opened
          = decode_shard (codecs env) compression (b0 :: b1 :: b2 :: b3 :: rest))
    as -> by by apply openShard_fresh.
  split; [|split; [|split]].
  - intros h Hh. apply decode_shard_ok_iff in Hh.
    destruct Hh as (Hlen & Hdec & H0 & Hmono & Hreg & Hlast & Hn).
    fold n in Hlen, Hdec, Hreg, Hn. fold table in Hdec. fold stored in Hreg.
    assert (length table = N.to_nat (4 * (n + 1))) as Htable.
    { unfold table. rewrite length_take. lia. }
    assert (length (offsets h) = S (N.to_nat n)) as Hoffs.
    { apply decode_u32s_length in Hdec. lia. }
    repeat split; try done.
    + lia.
    + lia.
    + by apply first_is_zero_iff.
    + by apply monotone_iff.
    + rewrite <- (last_lookup_length _ _ Hoffs). by apply last_is_iff.
  - intros Hshort. apply decode_shard_corrupt. left.
    unfold table in Hshort. rewrite length_take in Hshort. lia.
  - intros offs Hdec Hbad. apply decode_shard_corrupt. right; left.
    exists offs. split; [done|].
    destruct Hbad as [H0|(i & a & b & Ha & Hb & Hlt)].
    + left. apply not_true_is_false. by rewrite first_is_zero_iff.
    + right. apply not_true_is_false. rewrite monotone_iff.
      intros Hm. specialize (Hm i a b Ha Hb). lia.
  - intros offs region Hdec Hreg Hlast.
    destruct (decide (length rest < N.to_nat (4 * (n + 1)))) as [Hshort|Hlong].
    { apply decode_shard_corrupt. by left. }
    apply decode_shard_corrupt. right; right.
    exists offs, region. repeat split; try done.
    apply not_true_is_false. rewrite last_is_iff. intros Hl. apply Hlast.
    rewrite <- Hl. symmetry. apply last_lookup_length.
    apply decode_u32s_length in Hdec. unfold table in Hdec.
    rewrite length_take in Hdec. lia.
Qed.

(** The sample shard opens with a table that starts at 0 and ends at the
    length of its data region; the shard whose table decreases is refused
    as corrupt. *)
Lemma openShard_validates_offset_table_witness :
  (∃ h, fst (openShard Sample.env None Sample.chunk0 Sample.world) = Ok h
        ∧ ShardReader.recordCount h = 2%N
        ∧ offsets h !! 0 = Some 0%N
        ∧ offsets h !! 2 = Some (N.of_nat (length (data h))))
  ∧ fst (openShard Sample.env None Sample.chunk1 Sample.world)
    = Err CorruptShard.
Proof.
  split.
  - destruct (openShard_validates_offset_table Sample.env None Sample.chunk0
                Sample.world Byte.x02 Byte.x00 Byte.x00 Byte.x00
                (drop 4 Sample.shard0)) as [Hok _].
    + intros h. simpl. discriminate.
    + vm_compute. reflexivity.
    + destruct (fst (openShard Sample.env None Sample.chunk0 Sample.world))
        as [h|e] eqn:Hopen; [|vm_compute in Hopen; discriminate Hopen].
      exists h. destruct (Hok h eq_refl) as (Hn & _ & _ & _ & _ & H0 & _ & Hl).
      repeat split; done.
  - destruct (openShard_validates_offset_table Sample.env None Sample.chunk1
                Sample.world Byte.x02 Byte.x00 Byte.x00 Byte.x00
                (drop 4 Sample.shard1)) as (_ & _ & Hbad & _).
    + intros h. simpl. discriminate.
    + vm_compute. reflexivity.
    + apply (Hbad [0; 50; 45]%N); [vm_compute; reflexivity|].
      right. exists 1, 50%N, 45%N. repeat split; done.
Defined.

End ShardReaderFacts.

(** ** RecordExtractor *)

Module RecordExtractorFacts.

Import OffsetFacts.

Lemma sub_table_ok (fieldCount : nat) (record : bytes) subs payload :
  sub_table fieldCount record = Ok (subs, payload) →
  decode_u32s (take (4 * (fieldCount + 1)) record) = Some subs
  ∧ payload = drop (4 * (fieldCount + 1)) record
  ∧ length record = 4 * (fieldCount + 1) + length payload
  ∧ length subs = fieldCount + 1
  ∧ (∃ first, subs !! 0 = Some first
              ∧ (first ≤ N.of_nat (length payload))%N)
  ∧ monotone subs = true
  ∧ last subs = Some (N.of_nat (length payload)).
Proof.
  unfold sub_table. case_bool_decide as Hlen; [done|].
  destruct (decode_u32s _) as [subs'|] eqn:Hdec; [|done].
  destruct (monotone subs' && last_is _ subs') eqn:Hchk; [|done].
  intros [= <- <-].
  apply andb_true_iff in Hchk as [Hmono Hlast].
  apply last_is_iff in Hlast.
  apply decode_u32s_length in Hdec as Hl. rewrite length_take in Hl.
  assert (length subs' = fieldCount + 1) as Hsubs by lia.
  split; [done|]. split; [done|].
  split; [rewrite length_drop; lia|]. split; [done|].
  split; [|done].
  destruct (lookup_lt_is_Some_2 subs' 0) as [first Hfirst]; [lia|].
  exists first. split; [done|].
  rewrite last_lookup in Hlast.
  eapply (monotone_le subs' 0); [done| |done..]. lia.
Qed.

Lemma record_metas_lookup h fieldCount indices metas :
  record_metas h fieldCount indices = Ok metas →
  length metas = length indices
  ∧ ∀ k rm, metas !! k = Some rm →
      ∃ i, indices !! k = Some i ∧ record_meta h fieldCount i = Ok rm.
Proof.
  revert metas. induction indices as [|i indices IH]; intros metas; simpl.
  - intros [= <-]. split; [done|]. intros k rm H. by rewrite lookup_nil in H.
  - unfold mbind, result_bind.
    destruct (record_meta h fieldCount i) as [m|] eqn:Hm; [|done].
    destruct (record_metas h fieldCount indices) as [ms|] eqn:Hms; [|done].
    intros [= <-]. destruct (IH ms eq_refl) as [Hlen Hlook].
    split; [simpl; by rewrite Hlen|].
    intros [|k] rm Hk; simpl in Hk.
    + simplify_eq. by exists i.
    + by apply Hlook.
Qed.

(** In a record of several fields that passes the checks, the slice
    between two consecutive sub-offsets has exactly their difference as
    its length. *)
Lemma field_slice_length subs payload j a b :
  monotone subs = true → last subs = Some (N.of_nat (length payload)) →
  subs !! j = Some a → subs !! S j = Some b →
  N.of_nat (length (slice a b payload)) = (b - a)%N.
Proof.
  intros Hmono Hlast Ha Hb. apply length_slice.
  - by apply (proj1 (monotone_iff subs) Hmono j).
  - rewrite last_lookup in Hlast.
    eapply (monotone_le subs (S j)); [done| |done..].
    apply lookup_lt_Some in Hb. lia.
Qed.




Lemma sliceRecord_out_of_range h i :
  (recordCount h ≤ N.of_nat i)%N → sliceRecord h i = Err IndexOutOfRange.
Proof.
  intros Hi. unfold sliceRecord.
  by destruct (N.leb_spec (recordCount h) (N.of_nat i)); [|lia].
Qed.

Lemma readField_out_of_range h (fieldFormats : list string) i j :
  (recordCount h ≤ N.of_nat i)%N ∨ length fieldFormats ≤ j →
  readField h fieldFormats i j = Err IndexOutOfRange.
Proof.
  intros Hij. unfold readField.
  destruct (N.leb_spec (recordCount h) (N.of_nat i)); [done|].
  case_bool_decide; [done|]. lia.
Qed.

(** C6. On an open shard handle: the record index [recordCount] fails
    [IndexOutOfRange] and, when there is at least one record, the index
    [recordCount - 1] succeeds; in general [sliceRecord] succeeds on
    every index below [recordCount], returning [offset[i+1] - offset[i]]
    bytes, and fails [IndexOutOfRange] on every other index; and
    [readField] fails [IndexOutOfRange] whenever the record index or the
    field index is out of range. *)
Theorem index_bounds_checked cs compression file h :
  decode_shard cs compression file = Ok h →
  sliceRecord h (N.to_nat (recordCount h)) = Err IndexOutOfRange
  ∧ ((1 ≤ recordCount h)%N →
       ∃ record, sliceRecord h (N.to_nat (recordCount h) - 1) = Ok record)
  ∧ (∀ i, (recordCount h ≤ N.of_nat i)%N →
       sliceRecord h i = Err IndexOutOfRange)
  ∧ (∀ i, (N.of_nat i < recordCount h)%N →
       ∃ record lo hi,
         sliceRecord h i = Ok record
         ∧ offsets h !! i = Some lo ∧ offsets h !! S i = Some hi
         ∧ N.of_nat (length record) = (hi - lo)%N)
  ∧ (∀ (fieldFormats : list string) i j,
       (recordCount h ≤ N.of_nat i)%N ∨ length fieldFormats ≤ j →
       readField h fieldFormats i j = Err IndexOutOfRange).
Proof.
  intros Hopen.
  pose proof (sliceRecord_out_of_range h) as Hout.
  assert (∀ i, (N.of_nat i < recordCount h)%N →
       ∃ record lo hi,
         sliceRecord h i = Ok record
         ∧ offsets h !! i = Some lo ∧ offsets h !! S i = Some hi
         ∧ N.of_nat (length record) = (hi - lo)%N) as Hin.
  { intros i Hi.
    destruct file as [|b0 [|b1 [|b2 [|b3 rest]]]]; try done.
    apply ShardReaderFacts.decode_shard_ok_iff in Hopen
      as (Hfull & Hdec & _ & Hmono & _ & Hlast & Hn).
    apply decode_u32s_length in Hdec as Hlen. rewrite length_take in Hlen.
    assert (length (offsets h) = S (N.to_nat (recordCount h))) as Hoffs
      by lia.
    destruct (lookup_lt_is_Some_2 (offsets h) i) as [lo Hlo]; [lia|].
    destruct (lookup_lt_is_Some_2 (offsets h) (S i)) as [hi Hhi]; [lia|].
    exists (slice lo hi (data h)), lo, hi.
    unfold sliceRecord.
    destruct (N.leb_spec (recordCount h) (N.of_nat i)); [lia|].
    rewrite Hlo, Hhi. repeat split; try done.
    apply last_is_iff in Hlast. apply length_slice.
    - by apply (proj1 (monotone_iff _) Hmono i).
    - rewrite last_lookup in Hlast.
      eapply (monotone_le (offsets h) (S i)); [done| |done..]. lia. }
  split; [apply Hout; lia|]. split; [|split; [done|split; [done|]]].
  - intros Hone. destruct (Hin (N.to_nat (recordCount h) - 1))
      as (record & _ & _ & Hrec & _); [lia|]. by exists record.
  - intros fieldFormats i j Hij. by apply readField_out_of_range.
Qed.

(** The sample shard has two records: index 2 is refused, index 1 is
    served. *)
Lemma index_bounds_checked_witness :
  sliceRecord Sample.handle0 2 = Err IndexOutOfRange
  ∧ ∃ record, sliceRecord Sample.handle0 1 = Ok record.
Proof.
  destruct (index_bounds_checked (Operations.codecs Sample.env) None
              Sample.shard0 Sample.handle0)
    as (Hn & Hlast & _); [vm_compute; reflexivity|].
  split; [exact Hn|]. apply Hlast. simpl. lia.
Defined.

End RecordExtractorFacts.

(** ** The exposed operations *)

Module OperationsFacts.

Import OffsetFacts RecordExtractorFacts Manifest Operations.

(** Opening a shard a second time returns what the first open returned
    and leaves the cache as the first open left it. *)
Lemma openShard_again env compression sh w r w1 :
  openShard env compression sh w = (r, w1) →
  openShard env compression sh w1 = (r, w1).
Proof.
  assert (load_shard env compression (absolutePath sh) w = (r, w1) →
          (w1 = w ∧ ∃ e, r = Err e)
          ∨ ∃ h, r = Ok h ∧ w1 = install (absolutePath sh) h w) as Hload.
  { unfold load_shard. destruct (files w !! absolutePath sh) as [file|].
    - destruct (decode_shard _ _ file) as [h|e]; intros [= <- <-]; eauto.
    - intros [= <- <-]. eauto. }
  unfold openShard at 1.
  destruct (cache w) as [[path h]|] eqn:Hc.
  - destruct (String.eqb path (absolutePath sh)) eqn:Heq.
    + intros [= <- <-]. unfold openShard. by rewrite Hc, Heq.
    + intros Hrun. destruct (Hload Hrun) as [[-> _]|(h' & -> & ->)].
      * unfold openShard. by rewrite Hc, Heq.
      * unfold openShard. simpl. by rewrite String.eqb_refl.
  - intros Hrun. destruct (Hload Hrun) as [[-> _]|(h' & -> & ->)].
    + unfold openShard. by rewrite Hc.
    + unfold openShard. simpl. by rewrite String.eqb_refl.
Qed.

Lemma via_shard_again {A} env m name (f : ShardHandle → Result A) w r w1 :
  via_shard env m name f w = (r, w1) → via_shard env m name f w1 = (r, w1).
Proof.
  unfold via_shard, mbind, op_bind, resolve, lift.
  destruct (find_shard m name) as [sh|]; [|by intros [= <- <-]].
  destruct (openShard env (compression m) sh w) as [[h|e] w'] eqn:Hopen;
    intros [= <- <-]; by rewrite (openShard_again _ _ _ _ _ _ Hopen).
Qed.

Lemma via_shard_ok {A} env m name (f : ShardHandle → Result A) w a w1 :
  via_shard env m name f w = (Ok a, w1) →
  ∃ sh h, find_shard m name = Some sh
          ∧ openShard env (compression m) sh w = (Ok h, w1)
          ∧ f h = Ok a.
Proof.
  unfold via_shard, mbind, op_bind, resolve, lift.
  destruct (find_shard m name) as [sh|]; [|done].
  destruct (openShard env (compression m) sh w) as [[h|e] w'] eqn:Hopen;
    [|done].
  intros [= Hf <-]. by exists sh, h.
Qed.

Lemma via_shard_opened {A} env m name (f : ShardHandle → Result A) w sh h w1 :
  find_shard m name = Some sh →
  openShard env (compression m) sh w = (Ok h, w1) →
  via_shard env m name f w = (f h, w1).
Proof.
  intros Hsh Hopen. unfold via_shard, mbind, op_bind, resolve, lift.
  by rewrite Hsh, Hopen.
Qed.

(** A field that a successful listing reports can be read, and has the
    reported size. *)
Lemma readField_of_listed h (fieldFormats : list string) metas i j rm fm :
  RecordExtractor.listRecords h fieldFormats = Ok metas →
  metas !! i = Some rm → fields rm !! j = Some fm →
  recordIndex rm = i ∧ fieldIndex fm = j
  ∧ ∃ field, readField h fieldFormats i j = Ok field
             ∧ N.of_nat (length field) = RecordExtractor.byteSize fm.
Proof.
  intros Hlist Hrm Hfm. unfold RecordExtractor.listRecords in Hlist.
  apply record_metas_lookup in Hlist as [_ Hlook].
  destruct (Hlook i rm Hrm) as (i' & Hi' & Hmeta).
  apply lookup_seq in Hi' as [-> Hi]. simpl in Hmeta.
  unfold record_meta, mbind, result_bind in Hmeta.
  destruct (sliceRecord h i) as [record|] eqn:Hrec; [|done].
  destruct (record_fields (length fieldFormats) record) as [fs|] eqn:Hfs;
    [|done].
  injection Hmeta as <-. simpl in Hfm. split; [done|].
  unfold readField. rewrite Hrec.
  destruct (N.leb_spec (ShardReader.recordCount h) (N.of_nat i)); [lia|].
  unfold record_fields in Hfs.
  destruct (length fieldFormats) as [|[|F]] eqn:HF.
  - injection Hfs as <-. by rewrite lookup_nil in Hfm.
  - injection Hfs as <-. destruct j as [|j]; [|by destruct j].
    injection Hfm as <-. split; [done|]. exists record.
    by rewrite bool_decide_false, bool_decide_true by lia.
  - unfold mbind, result_bind in Hfs |- *.
    destruct (sub_table (S (S F)) record) as [[subs payload]|] eqn:Hsub;
      [|done].
    injection Hfs as <-.
    apply sub_table_ok in Hsub as (_ & _ & _ & Hsubs & _ & Hmono & Hlast).
    apply lookup_lt_Some in Hfm as Hj. rewrite field_metas_length in Hj.
    apply field_metas_lookup in Hfm as (a & b & Ha & Hb & ->).
    split; [done|]. exists (slice a b payload).
    rewrite !bool_decide_false by lia. rewrite Ha, Hb. split; [done|].
    by apply (field_slice_length subs payload j).
Qed.

(** The UTF-8 check on small inputs: ASCII and a two-byte sequence pass;
    a stray lead byte, an overlong form, a surrogate and a cut-off
    sequence do not. *)
Example utf8_valid_cases :
  ContentPreviewer.utf8_valid (Sample.text "hello") = true
  ∧ ContentPreviewer.utf8_valid [Byte.xc3; Byte.xa9] = true
  ∧ ContentPreviewer.utf8_valid [Byte.xff] = false
  ∧ ContentPreviewer.utf8_valid [Byte.xe0; Byte.x80; Byte.x80] = false
  ∧ ContentPreviewer.utf8_valid [Byte.xed; Byte.xa0; Byte.x80] = false
  ∧ ContentPreviewer.utf8_valid [Byte.xe2; Byte.x82] = false.
Proof. by vm_compute. Qed.

(** The scenario of the specification: in a shard of 2 records with 3
    fields each, field 0 of record 0 holds "hello" and previews as that
    text; field 1 starts with the JPEG magic and previews as binary with
    extension "jpg" and a hex snippet that begins "FF D8 FF". *)
Example preview_scenario :
  fst (previewField Sample.env Sample.manifest "chunk-0.bin" 0 0 Sample.world)
  = Ok {| ContentPreviewer.previewText := Some (lit "hello");
          ContentPreviewer.hexSnippet := "68 65 6C 6C 6F";
          ContentPreviewer.guessedExtension := None;
          ContentPreviewer.isBinary := false;
          ContentPreviewer.byteSize := 5 |}
  ∧ fst (previewField Sample.env Sample.manifest "chunk-0.bin" 0 1
           Sample.world)
    = Ok {| ContentPreviewer.previewText := None;
            ContentPreviewer.hexSnippet := "FF D8 FF E0";
            ContentPreviewer.guessedExtension := Some "jpg";
            ContentPreviewer.isBinary := true;
            ContentPreviewer.byteSize := 4 |}.
Proof. by vm_compute. Qed.

(** A listing that succeeds has one entry per record, in order, each with
    one field per declared format. *)
Lemma listed_shape h (fieldFormats : list string) metas :
  RecordExtractor.listRecords h fieldFormats = Ok metas →
  length metas = N.to_nat (ShardReader.recordCount h)
  ∧ ∀ i rm, metas !! i = Some rm →
      recordIndex rm = i ∧ length (fields rm) = length fieldFormats.
Proof.
  intros Hlist. unfold RecordExtractor.listRecords in Hlist.
  apply record_metas_lookup in Hlist as [Hlen Hlook].
  rewrite length_seq in Hlen. split; [done|]. intros i rm Hrm.
  destruct (Hlook i rm Hrm) as (i' & Hi' & Hmeta).
  apply lookup_seq in Hi' as [-> _]. simpl in Hmeta.
  unfold record_meta, mbind, result_bind in Hmeta.
  destruct (sliceRecord h i) as [record|]; [|done].
  destruct (record_fields (length fieldFormats) record) as [fs|] eqn:Hfs;
    [|done].
  injection Hmeta as <-. simpl. split; [done|].
  unfold record_fields in Hfs.
  destruct (length fieldFormats) as [|[|F]].
  - by injection Hfs as <-.
  - by injection Hfs as <-.
  - unfold mbind, result_bind in Hfs.
    destruct (sub_table (S (S F)) record) as [[subs payload]|] eqn:Hsub;
      [|done].
    injection Hfs as <-. apply sub_table_ok in Hsub as (_ & _ & _ & Hs & _).
    rewrite field_metas_length. lia.
Qed.

(** C5. For every record index within a successful listing of a shard
    and every field index within the declared formats, the listing holds
    a [FieldMeta] for the field, the preview of the field succeeds, and
    its [byteSize] is that [FieldMeta.byteSize], namely the length of the
    field's bytes, whatever the bounds the previewer truncates its text
    and hex output to. *)
Theorem preview_size_is_listed_size env m name w metas w1 i j :
  Operations.listRecords env m name w = (Ok metas, w1) →
  i < length metas → j < length (fieldFormats m) →
  ∃ rm fm field p,
    metas !! i = Some rm ∧ recordIndex rm = i
    ∧ fields rm !! j = Some fm ∧ fieldIndex fm = j
    ∧ fetchField env m name i j w = (Ok field, w1)
    ∧ previewField env m name i j w = (Ok p, w1)
    ∧ previewField env m name i j w1 = (Ok p, w1)
    ∧ ContentPreviewer.byteSize p = RecordExtractor.byteSize fm
    ∧ ContentPreviewer.byteSize p = N.of_nat (length field)
    ∧ ∀ cfg hint,
        ContentPreviewer.byteSize (ContentPreviewer.preview cfg field hint)
        = RecordExtractor.byteSize fm.
Proof.
  intros Hlist Hi Hj.
  apply via_shard_ok in Hlist as (sh & h & Hsh & Hopen & Hmetas).
  destruct (lookup_lt_is_Some_2 metas i Hi) as [rm Hrm].
  destruct (listed_shape h _ metas Hmetas) as [_ Hshape].
  destruct (Hshape i rm Hrm) as [_ Hfields].
  destruct (lookup_lt_is_Some_2 (fields rm) j) as [fm Hfm]; [lia|].
  destruct (readField_of_listed h _ metas i j rm fm Hmetas Hrm Hfm)
    as (Hri & Hfj & field & Hread & Hlen).
  assert (fetchField env m name i j w = (Ok field, w1)) as Hfetch.
  { unfold fetchField. rewrite (via_shard_opened _ _ _ _ _ _ _ _ Hsh Hopen).
    by rewrite Hread. }
  exists rm, fm, field,
    (ContentPreviewer.preview (previewer env) field (fieldFormats m !! j)).
  split; [done|]. split; [done|]. split; [done|]. split; [done|].
  split; [done|]. split.
  { unfold previewField, mbind, op_bind, lift. by rewrite Hfetch. }
  split.
  { unfold previewField, mbind, op_bind, lift.
    apply via_shard_again in Hfetch. unfold fetchField. by rewrite Hfetch. }
  by repeat split.
Qed.

(** Record 0 of the sample shard: field 1 is listed with 4 bytes and
    previewed with 4 bytes. *)
Lemma preview_size_is_listed_size_witness :
  ∃ metas rm fm p w1,
    Operations.listRecords Sample.env Sample.manifest "chunk-0.bin"
      Sample.world = (Ok metas, w1)
    ∧ metas !! 0 = Some rm ∧ fields rm !! 1 = Some fm
    ∧ previewField Sample.env Sample.manifest "chunk-0.bin" 0 1 Sample.world
      = (Ok p, w1)
    ∧ ContentPreviewer.byteSize p = RecordExtractor.byteSize fm.
Proof.
  destruct (Operations.listRecords Sample.env Sample.manifest "chunk-0.bin"
              Sample.world) as [[metas|e] w1] eqn:Hlist;
    [|vm_compute in Hlist; discriminate Hlist].
  assert (length metas = 2) as Hlen.
  { vm_compute in Hlist. by injection Hlist as <- _. }
  destruct (preview_size_is_listed_size Sample.env Sample.manifest
              "chunk-0.bin" Sample.world metas w1 0 1 Hlist)
    as (rm & fm & field & p & Hrm & _ & Hfm & _ & _ & Hprev & _ & Hp & _);
    [lia|simpl; lia|].
  by exists metas, rm, fm, p, w1.
Defined.

(** Once the shard is open, the exposed operations that take coordinates
    refuse an out-of-range record or field index with [IndexOutOfRange],
    and write nothing. *)
Lemma exposed_index_out_of_range env m name i j w sh h w1 :
  find_shard m name = Some sh →
  openShard env (compression m) sh w = (Ok h, w1) →
  (ShardReader.recordCount h ≤ N.of_nat i)%N
  ∨ length (fieldFormats m) ≤ j →
  previewField env m name i j w = (Err IndexOutOfRange, w1)
  ∧ materializeField env m name i j w = (Err IndexOutOfRange, w1).
Proof.
  intros Hsh Hopen Hij.
  assert (fetchField env m name i j w = (Err IndexOutOfRange, w1)) as Hf.
  { unfold fetchField. rewrite (via_shard_opened _ _ _ _ _ _ _ _ Hsh Hopen).
    by rewrite readField_out_of_range. }
  unfold previewField, materializeField, mbind, op_bind.
  by rewrite Hf.
Qed.

End OperationsFacts.

(** ** More on [trim] *)

Module TrimFacts.

Import JsStringFacts.

Lemma trimStart_idem (s : jsstring) : trimStart (trimStart s) = trimStart s.
Proof.
  induction s as [|c s IH]; [done|]. simpl.
  destruct (is_white_space c) eqn:Hc; [done|]. simpl. by rewrite Hc.
Qed.

Lemma trimStart_keeps_last (l : jsstring) (c : N) :
  is_white_space c = false → ∃ l', trimStart (l ++ [c]) = l' ++ [c].
Proof.
  intros Hc. induction l as [|d l IH]; simpl.
  - rewrite Hc. by exists [].
  - destruct (is_white_space d); [done|]. by exists (d :: l).
Qed.

Lemma trimEnd_keeps_head (c : N) (r : jsstring) :
  is_white_space c = false → ∃ r', trimEnd (c :: r) = c :: r'.
Proof.
  intros Hc. unfold trimEnd. rewrite reverse_cons.
  destruct (trimStart_keeps_last (reverse r) c Hc) as [l' ->].
  exists (reverse l'). by rewrite reverse_app.
Qed.

Lemma trimEnd_idem (s : jsstring) : trimEnd (trimEnd s) = trimEnd s.
Proof.
  unfold trimEnd. by rewrite reverse_involutive, trimStart_idem.
Qed.

(** Trimming a trimmed string changes nothing. *)
Lemma trim_idem (s : jsstring) : trim (trim s) = trim s.
Proof.
  unfold trim.
  assert (trimStart (trimEnd (trimStart s)) = trimEnd (trimStart s)) as ->.
  { destruct (trimStart s) as [|c r] eqn:Hs; [done|].
    apply trimStart_head in Hs as Hc.
    destruct (trimEnd_keeps_head c r Hc) as [r' ->]. simpl. by rewrite Hc. }
  apply trimEnd_idem.
Qed.

Lemma truthy_iff (s : jsstring) : truthy s = true ↔ s ≠ [].
Proof. by destruct s. Qed.

End TrimFacts.

(** ** The store under any sequence of actions *)

Module StoreActionsFacts.

Import ViewerStore StoreActions TrimFacts.

(** When [triggerLoad] starts a load and when it leaves the store alone. *)
Lemma triggerLoad_cases now index_mode payload s :
  let paths := default (chunkSelection s) payload in
  triggerLoad now index_mode payload s
  = if index_mode then
      if truthy (trim (indexPath s)) then
        set [mode_is (Some (ModeIndex (trim (indexPath s)) now));
             selectedChunkName_is None; selectedItemIndex_is None;
             selectedFieldIndex_is None] s
      else s
    else
      match paths with
      | [] => s
      | _ :: _ =>
          set [mode_is (Some (ModeChunks paths now));
               selectedChunkName_is None; selectedItemIndex_is None;
               selectedFieldIndex_is None] s
      end.
Proof.
  unfold triggerLoad. destruct index_mode.
  - by destruct (truthy _).
  - simpl. by destruct (default (chunkSelection s) payload).
Qed.

Lemma dispatch_mode_ok s a : mode_ok s → mode_ok (dispatch s a).
Proof.
  intros Hs. destruct a as [| |now index_mode payload| | | | |]; try done.
  simpl. rewrite triggerLoad_cases. destruct index_mode.
  - destruct (truthy (trim (indexPath s))) eqn:Ht; [|done].
    unfold mode_ok. simpl. split; [by apply truthy_iff|apply trim_idem].
  - destruct (default (chunkSelection s) payload) eqn:Hp; [done|].
    unfold mode_ok. simpl. done.
Qed.

Lemma run_mode_ok actions s : mode_ok s → mode_ok (run actions s).
Proof.
  unfold run. revert s. induction actions as [|a actions IH]; intros s Hs.
  - done.
  - simpl. apply IH. by apply dispatch_mode_ok.
Qed.

(** X1. Whatever actions are dispatched to the store, in whatever order
    and with whatever arguments, starting from its initial state, the
    load mode is either absent, or an index mode whose path is non-empty
    and already trimmed, or a chunks mode with at least one path. *)
Theorem mode_never_degenerate (actions : list Action) :
  mode_ok (run actions initial).
Proof. by apply run_mode_ok. Qed.

End StoreActionsFacts.

(** ** More on the command wrappers *)

Module WrapperFacts.

Import TauriApi JsStringFacts TrimFacts.

Lemma trimStart_skips (pre s : jsstring) :
  forallb is_white_space pre = true → trimStart (pre ++ s) = trimStart s.
Proof.
  induction pre as [|c pre IH]; [done|]. simpl.
  destruct (is_white_space c); [|done]. simpl. apply IH.
Qed.

Lemma trimStart_app (a b : jsstring) :
  trimStart a ≠ [] → trimStart (a ++ b) = trimStart a ++ b.
Proof.
  induction a as [|c a IH]; [done|]. simpl.
  destruct (is_white_space c); [apply IH|done].
Qed.

Lemma trimEnd_skips (s post : jsstring) :
  forallb is_white_space post = true → trimEnd (s ++ post) = trimEnd s.
Proof.
  intros H. unfold trimEnd. rewrite reverse_app, trimStart_skips; [done|].
  by rewrite forallb_reverse.
Qed.

(** White space around a string does not survive [trim]. *)
Lemma trim_surrounded (pre s post : jsstring) :
  forallb is_white_space pre = true → forallb is_white_space post = true →
  trim (pre ++ s ++ post) = trim s.
Proof.
  intros Hpre Hpost. unfold trim. rewrite trimStart_skips by done.
  destruct (trimStart s) as [|c r] eqn:Hs.
  - apply trimStart_nil_iff in Hs.
    assert (trimStart (s ++ post) = []) as ->; [|done].
    apply trimStart_nil_iff. by rewrite forallb_app, Hs, Hpost.
  - rewrite trimStart_app by by rewrite Hs. rewrite Hs.
    by apply trimEnd_skips.
Qed.

Section Facts.
Context {Reply : Type}.
Implicit Types (rt : Runtime Reply) (log : list Call).

Lemma loadIndex_inside rt indexPath log :
  tauri rt = true → trim indexPath ≠ [] →
  loadIndex rt indexPath log
  = (backend rt "load_index" (ArgsIndexPath (trim indexPath)),
     log ++ [CallInvoke "load_index" (ArgsIndexPath (trim indexPath))]).
Proof.
  intros Ht Hne. unfold loadIndex, mbind, task_bind, requireTauri, isTauri.
  rewrite Ht. simpl. by destruct (trim indexPath).
Qed.

Lemma loadChunkList_inside rt paths log :
  tauri rt = true → paths ≠ [] →
  loadChunkList rt paths log
  = (backend rt "load_chunk_list" (ArgsPaths paths),
     log ++ [CallInvoke "load_chunk_list" (ArgsPaths paths)]).
Proof.
  intros Ht Hne. unfold loadChunkList, mbind, task_bind, requireTauri, isTauri.
  rewrite Ht. simpl. by destruct paths.
Qed.

(** X2. White space around an index path is insignificant to [loadIndex]:
    with any run of white space before and after it, the call throws or
    invokes exactly as for the bare path (the same command, the same
    argument, the same outcome and log), in and outside the Tauri
    runtime. *)
Theorem loadIndex_ignores_surrounding_space rt log
    (pre indexPath post : jsstring) :
  forallb is_white_space pre = true →
  forallb is_white_space post = true →
  loadIndex rt (pre ++ indexPath ++ post) log = loadIndex rt indexPath log.
Proof.
  intros Hpre Hpost. unfold loadIndex, mbind, task_bind.
  destruct (requireTauri rt "Loading index" log) as [[[]|e] log']; [|done].
  by rewrite trim_surrounded.
Qed.

(** X3. [resolveDefaultDialogPath] never throws.  It asks the path API at
    most once, and only for a non-empty candidate that ends in [.json],
    [.bin] or [.zst] (in any letter case); it then answers the directory
    the API returns, or the candidate itself when the API fails.  In
    every other case it asks nothing of the host.  The answer is
    [undefined] exactly when the path and the root are both blank. *)
Theorem resolveDefaultDialogPath_total rt path rootDir log :
  ∃ answer log',
    resolveDefaultDialogPath rt path rootDir log = (Returned answer, log')
    ∧ (log' = log
       ∨ ∃ candidate,
           log' = log ++ [CallDirname candidate]
           ∧ looksLikeFile candidate = true
           ∧ truthy candidate = true
           ∧ answer = Some match dirname_api rt candidate with
                           | Returned dir => dir
                           | Thrown _ => candidate
                           end)
    ∧ (match answer with None => true | Some _ => false end
       = negb (truthy (trim (default [] path)))
         && negb (truthy (trim (default [] rootDir)))).
Proof.
  unfold resolveDefaultDialogPath.
  set (trimmed := trim (default [] path)).
  set (fallbackRoot := trim (default [] rootDir)).
  destruct (endsWith trimmed (lit "/") || endsWith trimmed [92%N]) eqn:Hsep.
  { eexists _, _. split; [done|]. split; [by left|]. simpl.
    destruct trimmed; [by vm_compute in Hsep|done]. }
  destruct (truthy trimmed) eqn:Htr; simpl.
  - rewrite Htr. simpl.
    destruct (looksLikeFile trimmed) eqn:Hfile; simpl.
    + unfold try_catch, mbind, task_bind, dirname, host.
      destruct (dirname_api rt trimmed) as [dir|e] eqn:Hdir;
        (eexists _, _; split; [done|]; split; [|done]);
        right; exists trimmed; by rewrite Hdir.
    + eexists _, _. split; [done|]. split; [by left|done].
  - destruct (truthy fallbackRoot) eqn:Hroot; simpl.
    + destruct (looksLikeFile fallbackRoot) eqn:Hfile; simpl.
      * unfold try_catch, mbind, task_bind, dirname, host.
        destruct (dirname_api rt fallbackRoot) as [dir|e] eqn:Hdir;
          (eexists _, _; split; [done|]; split; [|done]);
          right; exists fallbackRoot; by rewrite Hdir.
      * eexists _, _. split; [done|]. split; [by left|done].
    + eexists _, _. split; [done|]. split; [by left|done].
Qed.

(** What [chooseIndexSource] returns comes from the pick. *)
Lemma chooseIndexSource_returned rt currentPath lastRoot log result log' :
  chooseIndexSource rt currentPath lastRoot log = (Returned result, log') →
  ∃ picked,
    result =
      if picked_falsy picked then None
      else match several picked with
           | Some paths => Some (PickChunks paths)
           | None =>
               match first_of picked with
               | Some first =>
                   if chunk_like first then Some (PickChunks [first])
                   else Some (PickIndex first)
               | None => None
               end
           end.
Proof.
  unfold chooseIndexSource, mbind, task_bind.
  destruct (requireTauri rt _ log) as [[[]|e] log0]; [|done].
  destruct (resolveDefaultDialogPath rt _ _ log0) as [[d|e] log1]; [|done].
  unfold openDialog, host.
  destruct (dialog_api rt _) as [picked|e]; [|done].
  intros H. exists picked.
  destruct (picked_falsy picked); [by injection H as <- _|].
  destruct (several picked); [by injection H as <- _|].
  destruct (first_of picked); [|by injection H as <- _].
  destruct (chunk_like _); by injection H as <- _.
Qed.

Lemma chosen_chunks_nonempty rt currentPath lastRoot log paths log' :
  chooseIndexSource rt currentPath lastRoot log
  = (Returned (Some (PickChunks paths)), log') →
  paths ≠ [].
Proof.
  intros Hrun. apply chooseIndexSource_returned in Hrun as [picked Hres].
  destruct (picked_falsy picked); [done|].
  destruct picked as [|first|ps]; simpl in Hres.
  - done.
  - destruct (chunk_like first); by simplify_eq.
  - case_bool_decide as Hlen.
    + simplify_eq. intros ->. simpl in Hlen. lia.
    + destruct (head ps); [|done].
      destruct (chunk_like _); by simplify_eq.
Qed.

(** X4. Whatever the dialog resolves to, a result of kind "chunks" from
    [chooseIndexSource] carries at least one path; so inside the Tauri
    runtime [loadChunkList] never rejects it: it invokes
    [load_chunk_list] with exactly those paths. *)
Theorem chosen_chunks_always_load rt currentPath lastRoot log paths log' :
  chooseIndexSource rt currentPath lastRoot log
  = (Returned (Some (PickChunks paths)), log') →
  paths ≠ []
  ∧ (tauri rt = true →
     ∀ log2, loadChunkList rt paths log2
             = (backend rt "load_chunk_list" (ArgsPaths paths),
                log2 ++ [CallInvoke "load_chunk_list" (ArgsPaths paths)])).
Proof.
  intros Hrun. pose proof (chosen_chunks_nonempty _ _ _ _ _ _ Hrun) as Hne.
  split; [done|]. intros Ht log2. by apply loadChunkList_inside.
Qed.

End Facts.

(** X5. A single picked path is taken for a chunk file exactly when it
    contains [.bin] somewhere or ends with [.zst]; the test for ending
    with [.bin] adds nothing.  In particular every path with [.bin] in a
    directory name, whatever the file name, is taken for a chunk file. *)
Theorem chunk_like_iff (path : jsstring) :
  (chunk_like path = true
   ↔ (∃ before after, path = before ++ lit ".bin" ++ after)
     ∨ (∃ before, path = before ++ lit ".zst"))
  ∧ ∀ dir name, chunk_like (dir ++ lit ".bin" ++ name) = true.
Proof.
  assert (chunk_like path = true
   ↔ (∃ before after, path = before ++ lit ".bin" ++ after)
     ∨ (∃ before, path = before ++ lit ".zst")) as Hiff.
  { unfold chunk_like. rewrite !orb_true_iff.
    rewrite <- includes_iff, <- endsWith_iff. split.
    - intros [[H|H]|H]; [left; by apply endsWith_includes|by right|by left].
    - intros [H|H]; [by right|left; by right]. }
  split; [done|]. intros dir name. unfold chunk_like.
  assert (includes (dir ++ lit ".bin" ++ name) (lit ".bin") = true) as ->.
  { apply includes_iff. by exists dir, name. }
  by rewrite orb_true_r.
Qed.

End WrapperFacts.

(** ** The page: query function and handlers *)

Module PageFacts.

Import TauriApi Page.
Import ViewerStore StoreActions.
Import TrimFacts StoreActionsFacts WrapperFacts.

Section Facts.
Context {Reply : Type}.
Implicit Types (rt : Runtime Reply) (log : list Call) (s : ViewerState).

(** X6. In whatever state the store is after any sequence of actions from
    its initial state, the index query run on its mode inside the Tauri
    runtime is never stopped by the wrappers' input checks: an index mode
    invokes [load_index] with exactly the path held in the mode, and a
    chunks mode invokes [load_chunk_list] with exactly its paths.  Only
    an absent mode throws ("No source selected."), invoking nothing. *)
Theorem reachable_mode_query_invokes rt (actions : list Action) log :
  tauri rt = true →
  indexQueryFn rt (mode (run actions initial)) log
  = match mode (run actions initial) with
    | None => (Thrown "No source selected.", log)
    | Some (ModeIndex indexPath _) =>
        (backend rt "load_index" (ArgsIndexPath indexPath),
         log ++ [CallInvoke "load_index" (ArgsIndexPath indexPath)])
    | Some (ModeChunks paths _) =>
        (backend rt "load_chunk_list" (ArgsPaths paths),
         log ++ [CallInvoke "load_chunk_list" (ArgsPaths paths)])
    end.
Proof.
  intros Ht.
  assert (mode_ok (run actions initial)) as Hok by by apply run_mode_ok.
  unfold mode_ok in Hok.
  destruct (mode (run actions initial)) as [[indexPath id|paths id]|]; simpl.
  - destruct Hok as [Hne Htrim].
    rewrite loadIndex_inside by (by rewrite ?Htrim). by rewrite Htrim.
  - by apply loadChunkList_inside.
  - done.
Qed.

(** X7. What [handleChoose] does to the store, by what the chooser
    settled as.  A cancelled dialog changes nothing.  A "chunks" result
    always starts a chunks load of exactly the picked paths, records them
    as the chunk selection, and clears the status message and all three
    selections.  An "index" result stores the path as picked, clears the
    status message, keeps the chunk selection, and starts an index load
    of the trimmed path unless that is empty, in which case mode and
    selections stay as they were.  A failure only sets the status message
    to the error's message.  The host log is the chooser's. *)
Theorem handleChoose_by_outcome rt now rootDir s log :
  let chosen := chooseIndexSource rt (indexPath s) rootDir log in
  let s' := fst (handleChoose rt now rootDir s log) in
  snd (handleChoose rt now rootDir s log) = snd chosen
  ∧ (fst chosen = Returned None → s' = s)
  ∧ (∀ paths, fst chosen = Returned (Some (PickChunks paths)) →
       mode s' = Some (ModeChunks paths now)
       ∧ chunkSelection s' = paths
       ∧ indexPath s' = indexPath s
       ∧ statusMessage s' = None
       ∧ selectedChunkName s' = None
       ∧ selectedItemIndex s' = None
       ∧ selectedFieldIndex s' = None)
  ∧ (∀ path, fst chosen = Returned (Some (PickIndex path)) →
       indexPath s' = path
       ∧ chunkSelection s' = chunkSelection s
       ∧ statusMessage s' = None
       ∧ (trim path ≠ [] →
            mode s' = Some (ModeIndex (trim path) now)
            ∧ selectedChunkName s' = None
            ∧ selectedItemIndex s' = None
            ∧ selectedFieldIndex s' = None)
       ∧ (trim path = [] →
            mode s' = mode s
            ∧ selectedChunkName s' = selectedChunkName s
            ∧ selectedItemIndex s' = selectedItemIndex s
            ∧ selectedFieldIndex s' = selectedFieldIndex s))
  ∧ (∀ message, fst chosen = Thrown message →
       s' = setStatusMessage (Some (lit message)) s).
Proof.
  intros chosen s'. subst chosen s'. unfold handleChoose.
  destruct (chooseIndexSource rt (indexPath s) rootDir log)
    as [[[[path|paths]|]|message] log'] eqn:Hrun; cbn [fst snd].
  - split; [done|]. split; [done|]. split; [done|]. split; [|done].
    intros ? [= <-]. rewrite triggerLoad_cases. simpl.
    destruct (trim path) eqn:Htrim; simpl; by repeat split.
  - apply chosen_chunks_nonempty in Hrun.
    split; [done|]. split; [done|]. split; [|by split].
    intros ? [= <-]. rewrite triggerLoad_cases. simpl.
    destruct paths; [done|]. by repeat split.
  - by repeat split.
  - split; [done|]. split; [done|]. split; [done|]. split; [done|].
    by intros ? [= <-].
Qed.

End Facts.

(** X8. [handleLoad] clears the status message and then prefers a pending
    chunk selection: when the chunk selection is not empty it starts a
    chunks load of it, whatever the index path; when it is empty it
    starts an index load of the trimmed index path; when that is empty
    too, nothing else changes.  A load that starts clears all three
    selections; the index path and the chunk selection are never
    changed. *)
Theorem handleLoad_prefers_chunks now (s : ViewerState) :
  let s' := handleLoad now s in
  statusMessage s' = None
  ∧ indexPath s' = indexPath s
  ∧ chunkSelection s' = chunkSelection s
  ∧ (chunkSelection s ≠ [] →
       mode s' = Some (ModeChunks (chunkSelection s) now)
       ∧ selectedChunkName s' = None
       ∧ selectedItemIndex s' = None
       ∧ selectedFieldIndex s' = None)
  ∧ (chunkSelection s = [] → trim (indexPath s) ≠ [] →
       mode s' = Some (ModeIndex (trim (indexPath s)) now)
       ∧ selectedChunkName s' = None
       ∧ selectedItemIndex s' = None
       ∧ selectedFieldIndex s' = None)
  ∧ (chunkSelection s = [] → trim (indexPath s) = [] →
       s' = setStatusMessage None s).
Proof.
  intros s'. subst s'. unfold handleLoad.
  destruct (chunkSelection s) as [|p ps] eqn:Hsel; cbn [length bool_decide].
  - rewrite bool_decide_false by (simpl; lia). rewrite triggerLoad_cases. simpl.
    destruct (trim (indexPath s)) eqn:Htrim; simpl; by repeat split.
  - rewrite bool_decide_true by (simpl; lia). rewrite triggerLoad_cases.
    simpl. rewrite Hsel. simpl. by repeat split.
Qed.

End PageFacts.

(** ** The page: selection effects *)

Module EffectFacts.

Import Page.
Import ViewerStore.

Lemma find_existsb {A} (f : A → bool) (l : list A) :
  match List.find f l with
  | Some x => existsb f l = true ∧ f x = true ∧ x ∈ l
  | None => existsb f l = false
  end.
Proof.
  induction l as [|a l IH]; simpl; [done|].
  destruct (f a) eqn:Ha; simpl.
  - split; [done|]. split; [done|]. apply list_elem_of_here.
  - destruct (List.find f l) as [x|]; [|done].
    destruct IH as (? & ? & ?). split; [done|]. split; [done|].
    by apply list_elem_of_further.
Qed.

Lemma find_first {A} (f : A → bool) (l : list A) x :
  x ∈ l → f x = true → is_Some (List.find f l).
Proof.
  intros Hx Hf. pose proof (find_existsb f l) as H.
  destruct (List.find f l); [done|].
  assert (existsb f l = true) as Ht; [|congruence].
  apply existsb_exists. exists x. by rewrite <- list_elem_of_In.
Qed.

Lemma or_else_none a b : or_else a b = None → b = None.
Proof. unfold or_else. destruct a as [s|]; [|done]. by destruct (truthy s). Qed.

Lemma or_else_some a b name :
  or_else a b = Some name →
  (a = Some name ∧ name ≠ []) ∨ b = Some name.
Proof.
  unfold or_else. destruct a as [s|]; [|by right].
  destruct s; simpl; [by right|]. intros [= <-]. by left.
Qed.

Lemma chunkEffect_selected d s :
  selectedChunkName (chunkEffect (Some d) s)
  = next_chunk d (selectedChunkName s).
Proof.
  unfold chunkEffect. by case_bool_decide.
Qed.

Lemma next_chunk_valid d selected name :
  next_chunk d selected = Some name →
  name ≠ [] ∧ name ∈ filename <$> chunks d.
Proof.
  unfold next_chunk. intros H.
  apply or_else_some in H as [[Hfound Hne]|H].
  - split; [done|]. pose proof (find_existsb (name_is selected) (chunks d)).
    destruct (List.find _ _) as [c|]; [|done]. injection Hfound as <-.
    apply list_elem_of_fmap. exists c. split; [done|].
    by destruct H as (_ & _ & ?).
  - apply or_else_some in H as [[Hhead Hne]|?]; [|done].
    split; [done|]. destruct (chunks d) as [|c l]; [done|].
    injection Hhead as <-. apply list_elem_of_here.
Qed.

Lemma next_chunk_stable d selected :
  next_chunk d (next_chunk d selected) = next_chunk d selected.
Proof.
  destruct (next_chunk d selected) as [name|] eqn:Hnext.
  - apply next_chunk_valid in Hnext as [Hne Hin].
    apply list_elem_of_fmap in Hin as (c & -> & Hc).
    unfold next_chunk.
    destruct (find_first (name_is (Some (filename c))) (chunks d) c Hc)
      as [c' Hc']; [simpl; by apply bool_decide_eq_true|].
    rewrite Hc'. pose proof (find_existsb (name_is (Some (filename c)))
                               (chunks d)) as H.
    rewrite Hc' in H. destruct H as (_ & Hname & _).
    simpl in Hname. apply bool_decide_eq_true in Hname. simpl.
    rewrite Hname. by destruct (filename c).
  - unfold next_chunk in *. apply or_else_none in Hnext.
    pose proof (find_existsb (name_is None) (chunks d)) as H.
    destruct (List.find (name_is None) (chunks d)) as [c|]; [|done].
    by destruct H as (_ & ? & _).
Qed.

(** X9. After the chunk effect has run, the selected chunk name is
    [null] when no index is loaded, and otherwise either the non-empty
    file name of a chunk of the loaded index, or [null] when the index
    has no chunk or its first chunk's name is empty.  A selection that
    names a chunk of the index by a non-empty name is left as it is,
    with the item and field selection under it; a selection that
    changes clears both.  Running the effect again changes nothing. *)
Theorem chunkEffect_settles (data : option IndexSummary) (s : ViewerState) :
  let s' := chunkEffect data s in
  chunkEffect data s' = s'
  ∧ match data, selectedChunkName s' with
    | None, selected => selected = None
    | Some d, Some name => name ≠ [] ∧ name ∈ filename <$> chunks d
    | Some d, None =>
        match head (chunks d) with
        | Some c => filename c = []
        | None => True
        end
    end
  ∧ (∀ d name, data = Some d → selectedChunkName s = Some name →
       name ≠ [] → name ∈ filename <$> chunks d → s' = s)
  ∧ (selectedChunkName s' ≠ selectedChunkName s →
       selectedItemIndex s' = None ∧ selectedFieldIndex s' = None).
Proof.
  intros s'. subst s'. destruct data as [d|].
  - pose proof (chunkEffect_selected d s) as Hsel.
    split; [|split; [|split]].
    + set (s' := chunkEffect (Some d) s) in *.
      unfold chunkEffect. cbv zeta. rewrite Hsel, next_chunk_stable.
      by rewrite bool_decide_false by (intros H; by apply H).
    + rewrite Hsel.
      destruct (next_chunk d (selectedChunkName s)) as [name|] eqn:Hnext.
      * by apply next_chunk_valid in Hnext.
      * unfold next_chunk in Hnext. apply or_else_none in Hnext.
        destruct (head (chunks d)) as [c|]; [|done]. simpl in Hnext.
        by destruct (filename c).
    + intros d' name [= <-] Hs Hne Hin.
      apply list_elem_of_fmap in Hin as (c & -> & Hc).
      unfold chunkEffect. cbv zeta.
      rewrite Hs. assert (next_chunk d (Some (filename c))
                          = Some (filename c)) as ->; [|by case_bool_decide].
      unfold next_chunk.
      destruct (find_first (name_is (Some (filename c))) (chunks d) c Hc)
        as [c' Hc']; [simpl; by apply bool_decide_eq_true|].
      rewrite Hc'. pose proof (find_existsb (name_is (Some (filename c)))
                                 (chunks d)) as H.
      rewrite Hc' in H. destruct H as (_ & Hname & _).
      simpl in Hname. apply bool_decide_eq_true in Hname. simpl.
      rewrite Hname. by destruct (filename c).
    + unfold chunkEffect. by case_bool_decide.
  - by repeat split.
Qed.

Lemma index_is_true selected x : index_is selected x = true ↔ selected = Some x.
Proof.
  destruct selected as [i|]; simpl; [|done].
  rewrite bool_decide_eq_true. split; [by intros ->|by intros [= ->]].
Qed.

Lemma fieldEffect_frame selected s :
  selectedItemIndex (fieldEffect selected s) = selectedItemIndex s
  ∧ selectedChunkName (fieldEffect selected s) = selectedChunkName s.
Proof.
  unfold fieldEffect. destruct selected as [item|]; [|done].
  by destruct (existsb _ _).
Qed.

Lemma itemEffect_frame data s :
  selectedChunkName (itemEffect data s) = selectedChunkName s.
Proof.
  unfold itemEffect. destruct (default [] data); [done|].
  by destruct (existsb _ _).
Qed.

(** What the field effect leaves selected under a given item. *)
Lemma fieldEffect_settles_under item s :
  let s' := fieldEffect (Some item) s in
  fieldEffect (Some item) s' = s'
  ∧ match fields item with
    | [] => selectedFieldIndex s' = None
    | _ :: _ => ∃ field, field ∈ fields item
                         ∧ selectedFieldIndex s' = Some (fieldIndex field)
    end.
Proof.
  intros s'. subst s'.
  destruct (existsb (λ field, index_is (selectedFieldIndex s)
                                (fieldIndex field)) (fields item)) eqn:Hex.
  - assert (fieldEffect (Some item) s = s) as ->.
    { unfold fieldEffect. by rewrite Hex. }
    split; [unfold fieldEffect; by rewrite Hex|].
    apply existsb_exists in Hex as (field & Hin & Hfield).
    apply index_is_true in Hfield. apply list_elem_of_In in Hin.
    destruct (fields item); [by apply elem_of_nil in Hin|]. by exists field.
  - assert (fieldEffect (Some item) s
            = selectField (fieldIndex <$> head (fields item)) s) as ->.
    { unfold fieldEffect. by rewrite Hex. }
    destruct (fields item) as [|field rest] eqn:Hfields.
    + split; [|done]. unfold fieldEffect. by rewrite Hfields.
    + split.
      * unfold fieldEffect. rewrite Hfields.
        assert (existsb (λ f, index_is
                  (selectedFieldIndex
                     (selectField (fieldIndex <$> head (field :: rest)) s))
                  (fieldIndex f)) (field :: rest) = true) as ->; [|done].
        apply existsb_exists. exists field.
        split; [by left|by apply index_is_true].
      * exists field. split; [apply list_elem_of_here|done].
Qed.

(** X10. One round of the item effect followed by the field effect (with
    the selected item looked up afresh) settles the selection under the
    listed items: both effects leave the resulting store unchanged, the
    chunk selection is untouched, and either the list is empty and no
    item and no field is selected, or the selected index is that of an
    item of the list and the selected field index is that of one of the
    item's fields ([null] only when the item has no field). *)
Theorem item_field_effects_settle (data : option (list ItemMeta))
    (s : ViewerState) :
  let s1 := itemEffect data s in
  let s2 := fieldEffect (selectedItem data s1) s1 in
  itemEffect data s2 = s2
  ∧ fieldEffect (selectedItem data s2) s2 = s2
  ∧ selectedChunkName s2 = selectedChunkName s
  ∧ match selectedItem data s2 with
    | Some item =>
        item ∈ default [] data
        ∧ selectedItemIndex s2 = Some (itemIndex item)
        ∧ match fields item with
          | [] => selectedFieldIndex s2 = None
          | _ :: _ => ∃ field, field ∈ fields item
                               ∧ selectedFieldIndex s2
                                 = Some (fieldIndex field)
          end
    | None =>
        default [] data = []
        ∧ selectedItemIndex s2 = None ∧ selectedFieldIndex s2 = None
    end.
Proof.
  intros s1 s2.
  destruct (default [] data) as [|first rest] eqn:Hitems.
  - assert (selectedItem data s1 = None) as Hnone1.
    { unfold selectedItem. destruct data as [l|]; [|done].
      simpl in Hitems. by subst l. }
    assert (selectedItem data s2 = None) as Hnone2.
    { unfold selectedItem. destruct data as [l|]; [|done].
      simpl in Hitems. by subst l. }
    subst s2. rewrite Hnone1 in *. rewrite Hnone2. subst s1.
    unfold itemEffect. rewrite Hitems. by repeat split.
  - destruct data as [items|]; [|done]. simpl in Hitems. subst items.
    assert (∀ st, itemEffect (Some (first :: rest)) st
                  = if existsb (λ item, index_is (selectedItemIndex st)
                                          (itemIndex item)) (first :: rest)
                    then st else selectItem (Some (itemIndex first)) st)
      as Hitem by done.
    assert (existsb (λ item, index_is (selectedItemIndex s1) (itemIndex item))
              (first :: rest) = true) as Hex1.
    { subst s1. rewrite Hitem.
      destruct (existsb (λ item, index_is (selectedItemIndex s)
                                   (itemIndex item)) (first :: rest))
        eqn:Hex; [done|].
      apply existsb_exists. exists first.
      split; [by left|by apply index_is_true]. }
    pose proof (find_existsb
                  (λ item, index_is (selectedItemIndex s1) (itemIndex item))
                  (first :: rest)) as Hfind.
    destruct (List.find _ (first :: rest)) as [item|] eqn:Hfound;
      [|congruence].
    destruct Hfind as (_ & Hpick & Hin). apply index_is_true in Hpick.
    assert (selectedItem (Some (first :: rest)) s1 = Some item) as Hsel1
      by done.
    subst s2. rewrite Hsel1.
    destruct (fieldEffect_frame (Some item) s1) as [Hidx Hname].
    assert (selectedItem (Some (first :: rest)) (fieldEffect (Some item) s1)
            = Some item) as Hsel2.
    { change (List.find
                (λ it, index_is
                         (selectedItemIndex (fieldEffect (Some item) s1))
                         (itemIndex it)) (first :: rest) = Some item).
      rewrite Hidx. exact Hfound. }
    rewrite Hsel2.
    destruct (fieldEffect_settles_under item s1) as [Hstable Hfield].
    split; [|split; [done|split; [|split; [done|split]]]].
    + rewrite Hitem, Hidx. by rewrite Hex1.
    + rewrite Hname. apply itemEffect_frame.
    + by rewrite Hidx.
    + exact Hfield.
Qed.

End EffectFacts.

(** ** The page: the name shown for a selected chunk *)

Module ShownNameFacts.

Import Page.

Lemma split_from_last (current p : jsstring) :
  (∀ c, c ∈ current → is_separator c = false) →
  ∃ before name,
    last (split_from current p) = Some name
    ∧ (∀ c, c ∈ name → is_separator c = false)
    ∧ current ++ p = before ++ name
    ∧ (before = [] ∨ ∃ q c, before = q ++ [c] ∧ is_separator c = true).
Proof.
  revert current. induction p as [|c rest IH]; intros current Hcur.
  - exists [], current. simpl. rewrite app_nil_r. by repeat split; [|left].
  - simpl. destruct (is_separator c) eqn:Hc.
    + destruct (IH []) as (before & name & Hlast & Hname & Hrest & Hbefore).
      { intros ? H. by apply elem_of_nil in H. }
      simpl in Hrest. subst rest.
      exists (current ++ c :: before), name.
      split; [by rewrite last_cons, Hlast|]. split; [done|].
      split; [by rewrite <- app_assoc|]. right.
      destruct Hbefore as [->|(q & c' & -> & Hc')].
      * by exists current, c.
      * exists (current ++ c :: q), c'. split; [|done].
        by rewrite <- app_assoc.
    + destruct (IH (current ++ [c]))
        as (before & name & Hlast & Hname & Hrest & Hbefore).
      { intros x [Hx|Hx%list_elem_of_singleton]%elem_of_app;
          [by apply Hcur|by subst]. }
      exists before, name. split; [done|]. split; [done|].
      split; [|done]. rewrite <- Hrest. by rewrite <- app_assoc.
Qed.

(** X11. The name shown for a selected chunk is the part of its path
    after the last slash or backslash: it contains neither, and the path
    is that name preceded by nothing or by a prefix that ends in a
    separator.  The split never comes out empty, so the path itself is
    never shown in place of a name; a path that ends in a separator is
    shown as the empty name. *)
Theorem shown_name_is_last_segment (p : jsstring) :
  (∃ name, last (split_separators p) = Some name ∧ shown_name p = name)
  ∧ (∀ c, c ∈ shown_name p → is_separator c = false)
  ∧ (∃ before,
       p = before ++ shown_name p
       ∧ (before = [] ∨ ∃ q c, before = q ++ [c] ∧ is_separator c = true))
  ∧ ∀ q c, is_separator c = true → shown_name (q ++ [c]) = [].
Proof.
  destruct (split_from_last [] p)
    as (before & name & Hlast & Hname & Hp & Hbefore).
  { intros ? H. by apply elem_of_nil in H. }
  assert (shown_name p = name) as Hshown.
  { unfold shown_name, split_separators. by rewrite Hlast. }
  split; [by exists name|]. rewrite Hshown. split; [done|].
  split; [by exists before|].
  intros q c Hc.
  destruct (split_from_last [] (q ++ [c]))
    as (before' & name' & Hlast' & Hname' & Hp' & _).
  { intros ? H. by apply elem_of_nil in H. }
  unfold shown_name, split_separators. rewrite Hlast'. simpl in *.
  destruct name' as [|x name'] using rev_ind; [done|].
  rewrite app_assoc in Hp'. apply app_inj_tail in Hp' as [_ ->].
  specialize (Hname' x). rewrite Hname' in Hc; [done|].
  apply elem_of_app. right. by apply list_elem_of_singleton.
Qed.

End ShownNameFacts.


(** ** The page: a pending chunk selection and the Load button *)

Module PendingFacts.

Import TauriApi Page.
Import ViewerStore.
Import StoreActionsFacts.

(** X12. When an index file is picked while a chunk selection is
    pending, [handleChoose] keeps that selection, and [handleLoad] on the
    resulting store starts a chunks load of it, not an index load.  Once
    the index has loaded and the effect that drops the chunk selection
    has run, the selection is empty and [handleLoad] starts an index load
    of the trimmed picked path. *)
Theorem pending_chunks_shadow_index_pick {Reply} (rt : Runtime Reply)
    now now' rootDir (s : ViewerState) log path :
  fst (chooseIndexSource rt (indexPath s) rootDir log)
  = Returned (Some (PickIndex path)) →
  chunkSelection s ≠ [] →
  let s1 := fst (handleChoose rt now rootDir s log) in
  mode (handleLoad now' s1) = Some (ModeChunks (chunkSelection s) now')
  ∧ (trim path ≠ [] →
     ∀ data,
       chunkSelection (clearSelectionEffect (Some data) s1) = []
       ∧ mode (handleLoad now' (clearSelectionEffect (Some data) s1))
         = Some (ModeIndex (trim path) now')).
Proof.
  intros Hpick Hsel s1.
  assert (s1 = triggerLoad now true None
                 (setIndexPath path (setStatusMessage None s))) as Hs1.
  { subst s1. unfold handleChoose.
    destruct (chooseIndexSource rt (indexPath s) rootDir log) as [r log'].
    simpl in Hpick. by subst r. }
  rewrite triggerLoad_cases in Hs1. simpl in Hs1.
  destruct (chunkSelection s) as [|p ps] eqn:Hcs; [done|].
  split.
  - unfold handleLoad.
    assert (chunkSelection s1 = p :: ps) as Hcs1.
    { rewrite Hs1. by destruct (truthy (trim path)). }
    rewrite Hcs1, bool_decide_true by (simpl; lia).
    rewrite triggerLoad_cases. simpl. by rewrite Hcs1.
  - intros Hne data. destruct (trim path) as [|c t] eqn:Htrim; [done|].
    simpl in Hs1. rewrite Hs1. unfold clearSelectionEffect. simpl.
    rewrite ?Hcs. simpl. split; [done|].
    unfold handleLoad. simpl. by rewrite ?Htrim.
Qed.

End PendingFacts.

(** ** The last-opened index in the preference store *)

Module PrefsFacts.

Import TauriApi Prefs.

Section Facts.
Context {Reply : Type}.
Implicit Types (rt : Runtime Reply) (w : World).

Lemma loads_snoc w c :
  length (List.filter is_load (plugin_log w ++ [c]))
  = loads w + if is_load c then 1 else 0.
Proof.
  unfold loads. rewrite List.filter_app, length_app. simpl.
  by destruct (is_load c).
Qed.

Lemma getStore_loaded rt w :
  storeInstance w = true → getStore rt w = (Returned tt, w).
Proof. intros H. unfold getStore. by rewrite H. Qed.

(** The first use of the store inside the Tauri runtime, when the plugin
    lets the load through: one load, the file's entries, the instance
    kept. *)
Lemma getStore_first rt w :
  storeInstance w = false → tauri rt = true →
  plugin_ok w (StoreLoad STORE_NAME) = true →
  getStore rt w
  = (Returned tt,
     {| host_log := host_log w;
        plugin_log := plugin_log w ++ [StoreLoad STORE_NAME];
        storeInstance := true; entries := saved w; saved := saved w;
        plugin_ok := plugin_ok w |}).
Proof.
  intros Hi Ht Hok. unfold getStore. rewrite Hi.
  unfold mbind, pref_bind, of_task, requireTauri, isTauri. rewrite Ht.
  simpl. unfold Store_load, plugin. simpl. by rewrite Hok.
Qed.

(** A request served with the store already loaded never loads it again,
    whether the plugin lets its calls through or not. *)
Lemma serve_loaded rt w r :
  storeInstance w = true →
  storeInstance (serve rt w r) = true ∧ loads (serve rt w r) = loads w.
Proof.
  intros Hi. destruct r as [indexPath|]; simpl.
  - unfold saveLastIndex. destruct (isTauri rt); simpl; [|done].
    unfold mbind, pref_bind. rewrite (getStore_loaded _ _ Hi).
    unfold Store_set, Store_save, plugin. simpl.
    destruct (plugin_ok w (StoreSet _ _)); simpl.
    + destruct (plugin_ok w StoreSave); simpl;
        (split; [done|]); unfold loads; simpl;
        rewrite !List.filter_app, !length_app; simpl; lia.
    + split; [done|]. unfold loads. simpl.
      rewrite !List.filter_app, !length_app; simpl; lia.
  - unfold readLastIndex. destruct (isTauri rt); simpl; [|done].
    unfold mbind, pref_bind. rewrite (getStore_loaded _ _ Hi).
    unfold Store_get, plugin. simpl.
    destruct (plugin_ok w (StoreGet _)); simpl;
      (split; [done|]); unfold loads; simpl;
      rewrite !List.filter_app, !length_app; simpl; lia.
Qed.

(** X13. Once a store instance is held, no sequence of [saveLastIndex]
    and [readLastIndex] calls loads the store again, whatever the plugin
    answers; and outside the Tauri runtime no sequence of calls touches
    the plugin, the instance or the host at all. *)
Theorem store_loaded_at_most_once rt w (requests : list Request) :
  (storeInstance w = true →
     storeInstance (foldl (serve rt) w requests) = true
     ∧ loads (foldl (serve rt) w requests) = loads w)
  ∧ (tauri rt = false → foldl (serve rt) w requests = w).
Proof.
  split.
  - revert w. induction requests as [|r requests IH]; intros w Hi; [done|].
    simpl. destruct (serve_loaded rt w r Hi) as [Hi' Hl'].
    destruct (IH _ Hi') as [? ?]. split; [done|]. congruence.
  - intros Ht. revert w.
    induction requests as [|r requests IH]; intros w; [done|].
    simpl. assert (serve rt w r = w) as ->; [|apply IH].
    destruct r; simpl; unfold saveLastIndex, readLastIndex, isTauri;
      by rewrite Ht.
Qed.

(** X14. Inside the Tauri runtime, with a plugin that lets calls
    through: [saveLastIndex p] followed by [readLastIndex] returns [p];
    the path is in the store file after the save, so a later session
    that starts without a store instance reads [p] back from the file;
    the pair of calls loads the store at most once, and not at all when
    an instance was already held. *)
Theorem last_index_round_trip rt w (indexPath : jsstring) :
  tauri rt = true → (∀ c, plugin_ok w c = true) →
  ∃ w1 w2,
    saveLastIndex rt indexPath w = (Returned tt, w1)
    ∧ readLastIndex rt w1 = (Returned (Some indexPath), w2)
    ∧ saved w1 !! STORE_LAST_INDEX = Some indexPath
    ∧ loads w2 = loads w + (if storeInstance w then 0 else 1)
    ∧ ∀ later,
        storeInstance later = false → saved later = saved w1 →
        (∀ c, plugin_ok later c = true) →
        fst (readLastIndex rt later) = Returned (Some indexPath).
Proof.
  intros Ht Hok.
  assert (∀ v, storeInstance v = false → (∀ c, plugin_ok v c = true) →
               saved v !! STORE_LAST_INDEX = Some indexPath →
               fst (readLastIndex rt v) = Returned (Some indexPath))
    as Hlater.
  { intros v Hi Hv Hsaved. unfold readLastIndex, isTauri. rewrite Ht. simpl.
    unfold mbind, pref_bind.
    rewrite (getStore_first rt v Hi Ht (Hv _)).
    unfold Store_get, plugin. simpl. by rewrite Hv, Hsaved. }
  assert (∃ w1 w2,
    saveLastIndex rt indexPath w = (Returned tt, w1)
    ∧ readLastIndex rt w1 = (Returned (Some indexPath), w2)
    ∧ saved w1 !! STORE_LAST_INDEX = Some indexPath
    ∧ loads w2 = loads w + (if storeInstance w then 0 else 1))
    as (w1 & w2 & Hsave & Hread & Hsaved & Hloads).
  { destruct w as [hl pl inst ents sv ok]. simpl in Hok.
    unfold saveLastIndex, readLastIndex, isTauri. rewrite Ht. simpl.
    unfold getStore, Store_load, Store_set, Store_save, Store_get,
      keep_instance, plugin, of_task, requireTauri, isTauri, pure, loads,
      mbind, pref_bind, task_bind.
    rewrite Ht.
    destruct inst; repeat (simpl; rewrite ?Hok);
      (eexists _, _; split; [reflexivity|]);
      repeat (simpl; rewrite ?Hok); rewrite ?lookup_insert_eq;
      (split; [reflexivity|]); (split; [reflexivity|]);
      simpl; rewrite !List.filter_app, !length_app; simpl; lia. }
  exists w1, w2. repeat (split; [done|]).
  intros later Hl Hs Hv. apply Hlater; [done..|]. by rewrite Hs.
Qed.

End Facts.

End PrefsFacts.

(** ** The properties above on concrete stores, picks and sessions *)

Module Witnesses.

Import TauriApi Hosts Page.
Import ViewerStore StoreActions.

Lemma loadIndex_ignores_surrounding_space_witness :
  loadIndex (desktop PickNull) (lit "  /data/index.json ") []
  = loadIndex (desktop PickNull) (lit "/data/index.json") [].
Proof.
  exact (WrapperFacts.loadIndex_ignores_surrounding_space
           (desktop PickNull) [] (lit "  ") (lit "/data/index.json")
           (lit " ") eq_refl eq_refl).
Defined.

Lemma chosen_chunks_always_load_witness :
  loadChunkList (desktop PickNull) [lit "/d/a.bin"; lit "/d/b.bin"] []
  = (Returned 7,
     [CallInvoke "load_chunk_list"
        (ArgsPaths [lit "/d/a.bin"; lit "/d/b.bin"])]).
Proof.
  edestruct (WrapperFacts.chosen_chunks_always_load
               (desktop (PickArray [lit "/d/a.bin"; lit "/d/b.bin"]))
               (lit "/data/index.json") None []) as [_ Hload];
    [vm_compute; reflexivity|].
  exact (Hload eq_refl []).
Defined.

Lemma chunk_like_iff_witness :
  chunk_like (lit "/data.bin.d/index.json") = true.
Proof.
  exact (proj2 (WrapperFacts.chunk_like_iff []) (lit "/data")
           (lit ".d/index.json")).
Defined.

Lemma reachable_mode_query_invokes_witness :
  indexQueryFn (desktop PickNull)
    (mode (run [ASetIndexPath (lit " /data/index.json ");
                ATriggerLoad 1%Z true None] initial)) []
  = (Returned 7,
     [CallInvoke "load_index" (ArgsIndexPath (lit "/data/index.json"))]).
Proof.
  exact (PageFacts.reachable_mode_query_invokes (desktop PickNull)
           [ASetIndexPath (lit " /data/index.json ");
            ATriggerLoad 1%Z true None] [] eq_refl).
Defined.

Lemma handleChoose_by_outcome_witness :
  mode (fst (handleChoose
               (desktop (PickArray [lit "/d/a.bin"; lit "/d/b.bin"]))
               5%Z None initial []))
  = Some (ModeChunks [lit "/d/a.bin"; lit "/d/b.bin"] 5%Z).
Proof.
  destruct (PageFacts.handleChoose_by_outcome
              (desktop (PickArray [lit "/d/a.bin"; lit "/d/b.bin"]))
              5%Z None initial []) as (_ & _ & Hchunks & _).
  apply (Hchunks [lit "/d/a.bin"; lit "/d/b.bin"]).
  vm_compute. reflexivity.
Defined.

Lemma handleLoad_prefers_chunks_witness :
  mode (handleLoad 9%Z PageSample.pending)
  = Some (ModeChunks [lit "/d/a.bin"] 9%Z).
Proof.
  destruct (PageFacts.handleLoad_prefers_chunks 9%Z PageSample.pending)
    as (_ & _ & _ & Hchunks & _).
  apply Hchunks. discriminate.
Defined.

Lemma chunkEffect_settles_witness :
  chunkEffect (Some PageSample.index)
    (selectChunk (Some (lit "chunk-1.bin")) initial)
  = selectChunk (Some (lit "chunk-1.bin")) initial.
Proof.
  destruct (EffectFacts.chunkEffect_settles (Some PageSample.index)
              (selectChunk (Some (lit "chunk-1.bin")) initial))
    as (_ & _ & Hkeep & _).
  apply (Hkeep PageSample.index (lit "chunk-1.bin")); [done|done|done|].
  apply list_elem_of_further, list_elem_of_here.
Defined.

Lemma shown_name_is_last_segment_witness :
  shown_name (lit "/data/") = [].
Proof.
  exact (proj2 (proj2 (proj2 (ShownNameFacts.shown_name_is_last_segment [])))
           (lit "/data") 47%N eq_refl).
Defined.

Lemma pending_chunks_shadow_index_pick_witness :
  mode (handleLoad 9%Z
          (fst (handleChoose (desktop (PickArray [lit "/data/index.json"]))
                  5%Z None PageSample.pending [])))
  = Some (ModeChunks [lit "/d/a.bin"] 9%Z).
Proof.
  destruct (PendingFacts.pending_chunks_shadow_index_pick
              (desktop (PickArray [lit "/data/index.json"]))
              5%Z 9%Z None PageSample.pending []
              (lit "/data/index.json")) as [Hchunks _];
    [vm_compute; reflexivity|discriminate|].
  exact Hchunks.
Defined.

Lemma store_loaded_at_most_once_witness :
  Prefs.loads (foldl (Prefs.serve (desktop PickNull))
                 PageSample.loaded_refusing
                 [Prefs.Save (lit "/data/index.json"); Prefs.Read])
  = 0.
Proof.
  destruct (PrefsFacts.store_loaded_at_most_once (desktop PickNull)
              PageSample.loaded_refusing
              [Prefs.Save (lit "/data/index.json"); Prefs.Read])
    as [Hloaded _].
  destruct (Hloaded eq_refl) as [_ Hloads]. exact Hloads.
Defined.

Lemma last_index_round_trip_witness :
  ∃ w1 w2,
    Prefs.saveLastIndex (desktop PickNull) (lit "/data/index.json")
      PageSample.fresh = (Returned tt, w1)
    ∧ Prefs.readLastIndex (desktop PickNull) w1
      = (Returned (Some (lit "/data/index.json")), w2)
    ∧ Prefs.loads w2 = 1.
Proof.
  destruct (PrefsFacts.last_index_round_trip (desktop PickNull)
              PageSample.fresh (lit "/data/index.json") eq_refl
              (λ _, eq_refl))
    as (w1 & w2 & Hsave & Hread & _ & Hloads & _).
  by exists w1, w2.
Defined.

End Witnesses.
